(** * Quantum-Qiskit-Computing: the text codec and the bubble sort

    A shallow embedding of [src/algorithms/quantum_text_encoding.py] and
    [src/algorithms/quantum_sort.py].

    - A Python [str] is the list of its code points, a Python [int] is a [Z].
    - A Python exception is the [Raise] branch of [result].
    - The list that [quantum_bubble_sort] copies and then updates in place
      lives in a store ([gmap] from references to lists), so that the
      argument and the copy are two objects.
    - Console output ([print], [circuit.draw]) is not part of the model. *)

From Stdlib Require Import ZArith NArith Ascii String Lia.
From stdpp Require Import base option numbers list sorting gmap.

Local Open Scope Z_scope.

(** ** Exceptions *)

Inductive exn : Type :=
| ValueError
| IndexError
| CircuitError
| DanglingReference. (* a reference absent from the store: not reachable from Python *)

Inductive result (A : Type) : Type :=
| Ok (a : A)
| Raise (e : exn).
Arguments Ok {A} a.
Arguments Raise {A} e.

#[global] Instance result_ret : MRet result := fun A a => Ok a.
#[global] Instance result_bind : MBind result := fun A B f m =>
  match m with
  | Ok a => f a
  | Raise e => Raise e
  end.
#[global] Instance result_fmap : FMap result := fun A B f m =>
  match m with
  | Ok a => Ok (f a)
  | Raise e => Raise e
  end.

(** ** Python strings and the built-ins the codec calls *)

Module PyStr.

(** A character is its code point ([ord]). *)
Abbreviation char := N.
Abbreviation str := (list N).

Definition max_codepoint : Z := 0x10FFFF.

Definition ch0 : char := 48%N.         (* '0' *)
Definition ch1 : char := 49%N.         (* '1' *)
Definition ch_plus : char := 43%N.     (* '+' *)
Definition ch_minus : char := 45%N.    (* '-' *)
Definition ch_under : char := 95%N.    (* '_' *)
Definition ch_b : char := 98%N.        (* 'b' *)
Definition ch_B : char := 66%N.        (* 'B' *)

(** A literal of the development, read as a Python string. *)
Definition lit (s : string) : str := N_of_ascii <$> list_ascii_of_string s.
Arguments lit s%_string.

Definition bit_char (b : bool) : char := if b then ch1 else ch0.

(** [s[i:j]] for [0 <= i]: out-of-range bounds are clamped. *)
Definition slice (s : str) (i j : nat) : str := take (j - i) (drop i s).

(** [range(0, stop, step)] for a positive [step]. *)
Definition range_step (stop step : nat) : list nat :=
  (fun k => k * step)%nat <$> seq 0 ((stop + step - 1) / step)%nat.

(** [range(0, stop, step)]: a zero step raises, a negative one is empty. *)
Definition py_range (stop : nat) (step : Z) : result (list nat) :=
  if decide (step = 0) then Raise ValueError
  else if decide (step < 0) then Ok []
  else Ok (range_step stop (Z.to_nat step)).

(** The digits of [bin(n)] without the prefix. *)
Fixpoint pos_digits (p : positive) : str :=
  match p with
  | xH => [ch1]
  | xO q => pos_digits q ++ [ch0]
  | xI q => pos_digits q ++ [ch1]
  end.

Definition bin_digits (n : N) : str :=
  match n with
  | N0 => [ch0]
  | Npos p => pos_digits p
  end.

(** [format(n, '08b')]: the binary digits, zero-padded on the left to a
    width of at least 8; a longer numeral is kept whole. *)
Definition format_08b (n : N) : str :=
  let d := bin_digits n in
  replicate (8 - length d) ch0 ++ d.

(** [chr(i)]. *)
Definition chr (i : Z) : result char :=
  if decide (0 <= i <= max_codepoint) then Ok (Z.to_N i) else Raise ValueError.

(** *** [int(s, 2)]

    [int(s, 2)] on a [str] is CPython's [PyLong_FromUnicodeObject]: a
    string with a non-ASCII character is first rewritten to ASCII
    ([_PyUnicode_TransformDecimalAndSpaceToASCII]: a Unicode space becomes
    [' '], a Unicode decimal digit its ASCII digit, any other character
    from 127 on a ['?'] that ends the string); the result is read by
    [PyLong_FromString] with base 2: surrounding ASCII white space, an
    optional sign, an optional [0b] prefix (with one underscore allowed
    after it), then binary digits separated by single underscores. *)

(** The code points of the digit zero of each run of ten decimal digits
    (Unicode 14.0, the table of CPython 3.11). *)
Definition decimal_zeros : list N :=
  [0x30; 0x660; 0x6F0; 0x7C0; 0x966; 0x9E6; 0xA66; 0xAE6;
   0xB66; 0xBE6; 0xC66; 0xCE6; 0xD66; 0xDE6; 0xE50; 0xED0;
   0xF20; 0x1040; 0x1090; 0x17E0; 0x1810; 0x1946; 0x19D0; 0x1A80;
   0x1A90; 0x1B50; 0x1BB0; 0x1C40; 0x1C50; 0xA620; 0xA8D0; 0xA900;
   0xA9D0; 0xA9F0; 0xAA50; 0xABF0; 0xFF10; 0x104A0; 0x10D30; 0x11066;
   0x110F0; 0x11136; 0x111D0; 0x112F0; 0x11450; 0x114D0; 0x11650; 0x116C0;
   0x11730; 0x118E0; 0x11950; 0x11C50; 0x11D50; 0x11DA0; 0x16A60; 0x16AC0;
   0x16B50; 0x1D7CE; 0x1D7D8; 0x1D7E2; 0x1D7EC; 0x1D7F6; 0x1E140; 0x1E2F0;
   0x1E950; 0x1FBF0]%N.

(** [Py_UNICODE_TODECIMAL] *)
Definition unicode_todecimal (c : char) : option N :=
  (fun z => c - z)%N <$> List.find (fun z => (z <=? c) && (c <? z + 10))%N decimal_zeros.

(** [Py_UNICODE_ISSPACE], for a code point from 127 on. *)
Definition unicode_isspace (c : char) : bool :=
  ((c =? 0x85) || (c =? 0xA0) || (c =? 0x1680)
   || ((0x2000 <=? c) && (c <=? 0x200A))
   || (c =? 0x2028) || (c =? 0x2029) || (c =? 0x202F) || (c =? 0x205F)
   || (c =? 0x3000))%N.

Definition ch_space : char := 32%N.    (* ' ' *)
Definition ch_query : char := 63%N.    (* '?' *)

Definition is_ascii (s : str) : bool := forallb (fun c => (c <? 128)%N) s.

Fixpoint transform_to_ascii (s : str) : str :=
  match s with
  | [] => []
  | c :: s' =>
      if (c <? 127)%N then c :: transform_to_ascii s'
      else if unicode_isspace c then ch_space :: transform_to_ascii s'
      else match unicode_todecimal c with
           | Some d => (ch0 + d)%N :: transform_to_ascii s'
           | None => [ch_query]
           end
  end.

Definition is_space (c : char) : bool :=
  ((9 <=? c) && (c <=? 13) || (c =? 32))%N.

Fixpoint skip_space (s : str) : str :=
  match s with
  | c :: s' => if is_space c then skip_space s' else s
  | [] => []
  end.

Definition take_sign (s : str) : bool * str :=
  match s with
  | c :: s' =>
      if (c =? ch_plus)%N then (false, s')
      else if (c =? ch_minus)%N then (true, s')
      else (false, s)
  | [] => (false, [])
  end.

Definition skip_prefix (s : str) : str :=
  match s with
  | c :: d :: s' =>
      if ((c =? ch0) && ((d =? ch_b) || (d =? ch_B)))%N then
        match s' with
        | u :: s'' => if (u =? ch_under)%N then s'' else s'
        | [] => []
        end
      else s
  | _ => s
  end.

(** The digit scan: [prev] is the previous character (0 at the start),
    [acc] the value so far, [n] the number of digits seen.  [None] is a
    syntax error (doubled or trailing underscore). *)
Fixpoint scan_digits (prev : char) (acc : Z) (n : nat) (s : str)
  : option (Z * nat * str) :=
  match s with
  | c :: s' =>
      if (c =? ch_under)%N then
        if (prev =? ch_under)%N then None else scan_digits c acc n s'
      else if (c =? ch0)%N then scan_digits c (2 * acc) (S n) s'
      else if (c =? ch1)%N then scan_digits c (2 * acc + 1) (S n) s'
      else if (prev =? ch_under)%N then None else Some (acc, n, s)
  | [] => if (prev =? ch_under)%N then None else Some (acc, n, [])
  end.

(** [PyLong_FromString(s, &end, 2)] with the check that [end] is the end
    of the string. *)
Definition long_from_string (s : str) : result Z :=
  let '(neg, s2) := take_sign (skip_space s) in
  let s3 := skip_prefix s2 in
  match s3 with
  | c :: _ => if (c =? ch_under)%N then Raise ValueError else
      match scan_digits 0%N 0 0 s3 with
      | None => Raise ValueError
      | Some (v, n, rest) =>
          if decide (n = 0%nat) then Raise ValueError
          else match skip_space rest with
               | [] => Ok (if neg then - v else v)
               | _ :: _ => Raise ValueError
               end
      end
  | [] => Raise ValueError
  end.

Definition int_base2 (s : str) : result Z :=
  long_from_string (if is_ascii s then s else transform_to_ascii s).


(** The ASCII characters that can occur in a base-2 literal at all: white
    space, a sign, the binary digits, the underscore and the [b] of the
    prefix. *)
Definition literal_char (c : char) : bool :=
  (is_space c || (c =? ch_plus) || (c =? ch_minus) || (c =? ch0) || (c =? ch1)
   || (c =? ch_under) || (c =? ch_b) || (c =? ch_B))%N.

(** *** Bit strings *)

(** A bit string holds only the characters ['0'] and ['1']. *)
Definition is_bit (c : char) : Prop := c = ch0 ∨ c = ch1.
Definition is_bits (s : str) : Prop := Forall is_bit s.

(** The number a bit string spells, most significant bit first. *)
Definition bits_value (s : str) : Z :=
  foldl (fun acc c => 2 * acc + (if (c =? ch1)%N then 1 else 0)) 0 s.

End PyStr.

(** A [for] loop over a list, threading the loop state and stopping at the
    first exception. *)
Fixpoint for_each {S A : Type} (body : S -> A -> result S) (s : S) (l : list A)
  : result S :=
  match l with
  | [] => Ok s
  | x :: l' => s' ← body s x; for_each body s' l'
  end.

(** ** The circuit executor *)

Module Circuit.
Import PyStr.

Inductive instruction : Type :=
| XGate (q : nat)
| Measure (q c : nat).

(** [QuantumCircuit(qr, cr)] with one quantum and one classical register. *)
Record QuantumCircuit : Type := mkCircuit {
  num_qubits : nat;
  num_clbits : nat;
  data : list instruction
}.

Definition new_circuit (nq nc : nat) : QuantumCircuit := mkCircuit nq nc [].

Definition append (qc : QuantumCircuit) (ins : list instruction) : QuantumCircuit :=
  mkCircuit (num_qubits qc) (num_clbits qc) (data qc ++ ins).

(** [qc.x(qr[q])]: indexing the register outside its size raises. *)
Definition x (qc : QuantumCircuit) (q : nat) : result QuantumCircuit :=
  if decide (q < num_qubits qc)%nat then Ok (append qc [XGate q])
  else Raise CircuitError.

(** [qc.measure(qr[q], cr[c])]. *)
Definition measure (qc : QuantumCircuit) (q c : nat) : result QuantumCircuit :=
  if decide (q < num_qubits qc ∧ c < num_clbits qc)%nat
  then Ok (append qc [Measure q c])
  else Raise CircuitError.

(** [qc.measure(qr, cr)]: qubit [i] is measured into classical bit [i];
    registers of different sizes are refused. *)
Definition measure_all (qc : QuantumCircuit) : result QuantumCircuit :=
  if decide (num_qubits qc = num_clbits qc)
  then Ok (append qc ((fun i => Measure i i) <$> seq 0 (num_qubits qc)))
  else Raise CircuitError.

(** Modelled from the spec: the simulator behind [execute(qc, backend,
    shots=1)] and [result.get_counts(qc)] (qiskit's Aer [qasm_simulator])
    is a library outside the sources.  The circuits built here hold only
    bit flips and measurements, so the register stays in a computational
    basis state: a qubit is a [bool], X negates it, a measurement copies
    it into its classical bit with probability 1.  The key of the counts
    dictionary spells the classical register from its last bit to its
    first. *)
Record sim_state : Type := mkState {
  qubits : list bool;
  clbits : list bool
}.

Definition init_state (qc : QuantumCircuit) : sim_state :=
  mkState (replicate (num_qubits qc) false) (replicate (num_clbits qc) false).

Definition step (st : sim_state) (ins : instruction) : sim_state :=
  match ins with
  | XGate q => mkState (alter negb q (qubits st)) (clbits st)
  | Measure q c =>
      mkState (qubits st) (<[c := default false (qubits st !! q)]> (clbits st))
  end.

Definition run_shot (qc : QuantumCircuit) : sim_state :=
  foldl step (init_state qc) (data qc).

Definition counts_key (st : sim_state) : str :=
  reverse (bit_char <$> clbits st).

(** [execute(qc, backend, shots=1).result().get_counts(qc)]: one key,
    counted once. *)
Definition get_counts (qc : QuantumCircuit) : list (str * nat) :=
  [(counts_key (run_shot qc), 1%nat)].

(** [list(counts.keys())[0]]. *)
Definition first_key (counts : list (str * nat)) : result str :=
  match counts with
  | (k, _) :: _ => Ok k
  | [] => Raise IndexError
  end.

End Circuit.

(** ** [quantum_text_encoding.py] *)

Module TextEncoding.
Import PyStr Circuit.

Definition text_to_binary (text : str) : str :=
  concat (format_08b <$> text).

Definition binary_to_text (binary : str) : result str :=
  for_each
    (fun text i =>
       let byte := slice binary i (i + 8) in
       n ← int_base2 byte;
       c ← chr n;
       Ok (text ++ [c]))
    [] (range_step (length binary) 8).

(** What the loop of [binary_to_text] reads: the group that starts at each
    multiple of 8 (the last one may be shorter), as the character whose
    code point the group spells. *)
Definition decode_groups (binary : str) : str :=
  (fun i => Z.to_N (bits_value (slice binary i (i + 8)))) <$>
  range_step (length binary) 8.

(** The circuit of [process_chunk]: an X on qubit [i] for every ['1'] at
    position [i], then the measurement of the whole register. *)
Definition encode_circuit (binary_chunk : str) : result QuantumCircuit :=
  let n_qbits := length binary_chunk in
  qc ← for_each
         (fun qc '(i, bit) => if (bit =? ch1)%N then x qc i else Ok qc)
         (new_circuit n_qbits n_qbits)
         (imap (fun i bit => (i, bit)) binary_chunk);
  measure_all qc.

(** The flags a string asks to prepare, and the bit flips they produce
    from qubit [k] on. *)
Definition flags (binary_chunk : str) : list bool :=
  (fun bit => (bit =? ch1)%N) <$> binary_chunk.

Fixpoint x_gates (k : nat) (binary_chunk : str) : list instruction :=
  match binary_chunk with
  | [] => []
  | bit :: rest =>
      (if (bit =? ch1)%N then [XGate k] else []) ++ x_gates (S k) rest
  end.

(** [list(counts.keys())[0]] after the single shot: the string read back
    from the simulator, before it is reversed. *)
Definition measured_key (qc : QuantumCircuit) : result str :=
  first_key (get_counts qc).

Definition process_chunk (chunk : str) : result (str * QuantumCircuit) :=
  let binary_chunk := text_to_binary chunk in
  qc ← encode_circuit binary_chunk;
  measured ← measured_key qc;
  Ok (reverse measured, qc).

Definition process_message_chunks (message : str) (chunk_size : Z)
  : result (str * list QuantumCircuit) :=
  starts ← py_range (length message) chunk_size;
  for_each
    (fun '(result_binary, circuits) i =>
       let chunk := slice message i (i + Z.to_nat chunk_size) in
       '(chunk_binary, circuit) ← process_chunk chunk;
       Ok (result_binary ++ chunk_binary, circuits ++ [circuit]))
    ([], []) starts.

Definition default_chunk_size : Z := 3.

(** [display_circuits] and [print_results_summary] only print. *)
Definition quantum_text_encoding (message : str) (chunk_size : Z) : result str :=
  '(result_binary, circuits) ← process_message_chunks message chunk_size;
  binary_to_text result_binary.

(** The chunks the loop of [process_message_chunks] cuts:
    [message[i:i + chunk_size]] for each [i] of the range. *)
Definition chunks (message : str) (chunk_size : nat) : list str :=
  (fun i => slice message i (i + chunk_size)) <$>
  range_step (length message) chunk_size.

(** The number [process_message_chunks] prints for the chunk that starts at
    [i]: [i // chunk_size + 1], for a chunk size other than 0. *)
Definition chunk_number (i : nat) (chunk_size : Z) : Z :=
  Z.of_nat i / chunk_size + 1.

(** The number [display_circuits] prints for the circuit at index [i] of
    the list. *)
Definition circuit_number (i : nat) : Z := Z.of_nat i + 1.

(** The number [print_results_summary] prints as the total of chunks:
    [len(message) // chunk_size + (1 if len(message) % chunk_size else 0)];
    [None] stands for the ZeroDivisionError of a chunk size of 0. *)
Definition total_chunks (message : str) (chunk_size : Z) : option Z :=
  if decide (chunk_size = 0) then None
  else Some (Z.of_nat (length message) / chunk_size
             + (if decide (Z.of_nat (length message) mod chunk_size = 0) then 0 else 1)).

End TextEncoding.

(** ** [quantum_sort.py] *)

Module Sort.
Import PyStr Circuit.

(** *** The store of list objects *)

Abbreviation ref := nat.
Abbreviation store := (gmap nat (list Z)).

(** A computation that reads and updates the store and may raise. *)
Definition Py (A : Type) : Type := store -> result (A * store).

#[global] Instance Py_ret : MRet Py := fun A a h => Ok (a, h).
#[global] Instance Py_bind : MBind Py := fun A B f m h =>
  match m h with
  | Ok (a, h') => f a h'
  | Raise e => Raise e
  end.

Definition lift {A : Type} (r : result A) : Py A := fun h =>
  match r with
  | Ok a => Ok (a, h)
  | Raise e => Raise e
  end.

(** [len(l)] *)
Definition list_len (l : ref) : Py nat := fun h =>
  match h !! l with
  | Some xs => Ok (length xs, h)
  | None => Raise DanglingReference
  end.

(** [l.copy()]: a new list object with the same items. *)
Definition list_copy (l : ref) : Py ref := fun h =>
  match h !! l with
  | Some xs => let l' := fresh (dom h) in Ok (l', <[l' := xs]> h)
  | None => Raise DanglingReference
  end.

(** [l[j]] for [0 <= j] *)
Definition list_get (l : ref) (j : nat) : Py Z := fun h =>
  match h !! l with
  | Some xs =>
      match xs !! j with
      | Some v => Ok (v, h)
      | None => Raise IndexError
      end
  | None => Raise DanglingReference
  end.

(** [l[j] = v] for [0 <= j] *)
Definition list_set (l : ref) (j : nat) (v : Z) : Py unit := fun h =>
  match h !! l with
  | Some xs =>
      if decide (j < length xs)%nat then Ok ((), <[l := <[j := v]> xs]> h)
      else Raise IndexError
  | None => Raise DanglingReference
  end.

(** [for k in range(n): body(k)] *)
Fixpoint for_in (ks : list nat) (body : nat -> Py unit) : Py unit :=
  match ks with
  | [] => mret ()
  | k :: ks' => _ ← body k; for_in ks' body
  end.

Definition for_range (n : nat) (body : nat -> Py unit) : Py unit :=
  for_in (seq 0 n) body.

(** *** The program *)

Definition quantum_compare (a b : Z) : result bool :=
  let qc := new_circuit 1 1 in
  qc ← (if a >? b then x qc 0 else Ok qc);
  qc ← measure qc 0 0;
  key ← first_key (get_counts qc);
  Ok (bool_decide (key = [ch1])).

(** The body of the inner loop: compare two neighbours through the
    circuit and exchange them with a tuple assignment. *)
Definition compare_and_swap (array_sorted : ref) (j : nat) : Py unit :=
  a ← list_get array_sorted j;
  b ← list_get array_sorted (j + 1);
  c ← lift (quantum_compare a b);
  if c : bool then
    hi ← list_get array_sorted (j + 1);
    lo ← list_get array_sorted j;
    _ ← list_set array_sorted j hi;
    list_set array_sorted (j + 1) lo
  else mret ().

Definition quantum_bubble_sort (arr : ref) : Py ref :=
  n ← list_len arr;
  array_sorted ← list_copy arr;
  _ ← for_range n (fun i =>
        for_range (n - i - 1) (fun j => compare_and_swap array_sorted j));
  mret array_sorted.

(** *** The pass on plain lists, used to state what the loops compute *)

(** One step of a pass at index [j]. *)
Definition swap_at (ys : list Z) (j : nat) : list Z :=
  match ys !! j, ys !! (j + 1)%nat with
  | Some a, Some b => if a >? b then <[(j + 1)%nat := a]> (<[j := b]> ys) else ys
  | _, _ => ys
  end.

(** Pass number [i] over a list of [n] items, and the [n] passes. *)
Definition pass (n : nat) (ys : list Z) (i : nat) : list Z :=
  foldl swap_at ys (seq 0 (n - i - 1)).

Definition passes (n : nat) (ys : list Z) : list Z :=
  foldl (pass n) ys (seq 0 n).

(** A pass with [x] in hand: the larger of [x] and the next item moves on. *)
Fixpoint bubble (x : Z) (l : list Z) : list Z :=
  match l with
  | [] => [x]
  | y :: l' => if x >? y then y :: bubble x l' else x :: bubble y l'
  end.

(** The indices [j] at which the two nested loops compare [j] and [j + 1],
    in the order of the run. *)
Definition comparison_schedule (n : nat) : list nat :=
  i ← seq 0 n; seq 0 (n - i - 1).

(** What holds before pass [i]: the last [i] items are sorted and at
    least as large as every item before them. *)
Definition settled (i : nat) (ys : list Z) : Prop :=
  exists pre suf,
    ys = pre ++ suf ∧ length suf = i ∧ StronglySorted Z.le suf ∧
    Forall (fun p => Forall (Z.le p) suf) pre.

End Sort.

(** * Properties *)

(** ** Facts about the built-ins *)

Section Builtins.
Import PyStr.

Lemma range_step_0 step : (0 < step)%nat -> range_step 0 step = [].
Proof.
  intros Hs. unfold range_step.
  replace ((0 + step - 1) / step)%nat with 0%nat; [done|].
  symmetry. apply Nat.div_small. lia.
Qed.

Lemma range_step_pos stop step :
  (0 < step)%nat -> (0 < stop)%nat ->
  range_step stop step =
  0%nat :: ((fun i => (i + step)%nat) <$> range_step (stop - step) step).
Proof.
  intros Hs Hn. unfold range_step.
  assert (((stop + step - 1) / step)%nat = S ((stop - step + step - 1) / step)%nat) as ->.
  { destruct (decide (stop <= step)%nat) as [Hle|Hgt].
    - replace (stop - step)%nat with 0%nat by lia.
      rewrite (Nat.div_small (0 + step - 1) step) by lia.
      replace (stop + step - 1)%nat with (1 * step + (stop - 1))%nat by lia.
      rewrite Nat.div_add_l by lia. rewrite Nat.div_small by lia. done.
    - replace (stop + step - 1)%nat with (1 * step + (stop - step + step - 1))%nat by lia.
      rewrite Nat.div_add_l by lia. done. }
  simpl. f_equal. rewrite <- seq_shift, <- !list_fmap_compose.
  apply list_fmap_ext. intros _ k _. simpl. lia.
Qed.

Lemma pos_digits_bits p : is_bits (pos_digits p).
Proof.
  induction p as [q IH|q IH|]; simpl.
  - apply Forall_app. split; [done|]. constructor; [by right|constructor].
  - apply Forall_app. split; [done|]. constructor; [by left|constructor].
  - constructor; [by right|constructor].
Qed.

Lemma bin_digits_bits n : is_bits (bin_digits n).
Proof.
  destruct n; simpl; [repeat constructor; unfold is_bit; auto|].
  apply pos_digits_bits.
Qed.

Lemma format_08b_bits n : is_bits (format_08b n).
Proof.
  unfold format_08b. apply Forall_app. split; [|apply bin_digits_bits].
  apply Forall_replicate. unfold is_bit; auto.
Qed.

Lemma pos_digits_length p : length (pos_digits p) = Pos.to_nat (Pos.size p).
Proof.
  induction p; simpl; rewrite ?length_app, ?IHp; simpl; lia.
Qed.

(** The width of [format(n, '08b')]: 8, or the size of [n] when larger. *)
Lemma format_08b_length n :
  length (format_08b n) = Nat.max 8 (N.to_nat (N.size n) `max` 1).
Proof.
  unfold format_08b. rewrite length_app, length_replicate.
  destruct n as [|p]; simpl; [done|].
  rewrite pos_digits_length. lia.
Qed.

Lemma format_08b_length_byte n : (n < 256)%N -> length (format_08b n) = 8%nat.
Proof.
  intros Hn. rewrite format_08b_length.
  assert (N.size n <= 8)%N; [|lia].
  destruct (decide (n = 0%N)) as [->|Hz]; [done|].
  rewrite N.size_log2 by done.
  assert (N.log2 n < 8)%N; [|lia].
  apply N.log2_lt_pow2; [lia|done].
Qed.

Lemma bits_value_app s1 s2 :
  bits_value (s1 ++ s2) =
  foldl (fun acc c => 2 * acc + (if (c =? ch1)%N then 1 else 0)) (bits_value s1) s2.
Proof. unfold bits_value. by rewrite foldl_app. Qed.

Lemma bits_value_snoc s c :
  bits_value (s ++ [c]) = 2 * bits_value s + (if (c =? ch1)%N then 1 else 0).
Proof. by rewrite bits_value_app. Qed.

Lemma bits_value_zeros k s : bits_value (replicate k ch0 ++ s) = bits_value s.
Proof.
  induction k as [|k IH]; [done|].
  unfold bits_value in *. simpl. apply IH.
Qed.

Lemma pos_digits_value p : bits_value (pos_digits p) = Z.pos p.
Proof.
  induction p; simpl; rewrite ?bits_value_snoc, ?IHp; simpl; try lia.
  done.
Qed.

Lemma format_08b_value n : bits_value (format_08b n) = Z.of_N n.
Proof.
  unfold format_08b. rewrite bits_value_zeros.
  destruct n; simpl; [done|apply pos_digits_value].
Qed.

Lemma bits_value_bounds s : is_bits s -> 0 <= bits_value s < 2 ^ Z.of_nat (length s).
Proof.
  induction s as [|c s IH] using rev_ind; intros Hs; [simpl; unfold bits_value; simpl; lia|].
  apply Forall_app in Hs as [Hs Hc]. specialize (IH Hs).
  rewrite bits_value_snoc, length_app. simpl.
  replace (Z.of_nat (length s + 1)) with (Z.succ (Z.of_nat (length s))) by lia.
  rewrite Z.pow_succ_r by lia.
  destruct (c =? ch1)%N; lia.
Qed.

End Builtins.

Section IntLiteral.
Import PyStr.

Lemma scan_digits_bits prev acc n s :
  is_bits s -> prev ≠ ch_under ->
  scan_digits prev acc n s =
  Some (foldl (fun acc c => 2 * acc + (if (c =? ch1)%N then 1 else 0)) acc s,
        (n + length s)%nat, []).
Proof.
  intros Hs. revert prev acc n.
  induction Hs as [|c s Hc Hs IH]; intros prev acc n Hprev; simpl.
  - destruct (N.eqb_spec prev ch_under); [done|].
    by rewrite Nat.add_0_r.
  - destruct Hc as [-> | ->]; simpl; rewrite IH by done.
    + rewrite Z.add_0_r.
      by replace (n + S (length s))%nat with (S n + length s)%nat by lia.
    + by replace (n + S (length s))%nat with (S n + length s)%nat by lia.
Qed.

Lemma skip_prefix_bits s : is_bits s -> skip_prefix s = s.
Proof.
  intros Hs. destruct Hs as [|c s Hc Hs]; [done|].
  destruct Hs as [|d s Hd Hs]; [done|].
  unfold skip_prefix.
  destruct Hd as [-> | ->]; simpl; by rewrite andb_false_r.
Qed.

Lemma is_ascii_bits s : is_bits s -> is_ascii s = true.
Proof.
  induction 1 as [|c s [-> | ->] _ IH]; [done| |]; simpl; by rewrite IH.
Qed.

(** On a non-empty bit string [int(s, 2)] is the number it spells. *)
Lemma int_base2_bits s : is_bits s -> s ≠ [] -> int_base2 s = Ok (bits_value s).
Proof.
  intros Hs Hne. unfold int_base2. rewrite (is_ascii_bits s Hs).
  unfold long_from_string.
  destruct s as [|c s]; [done|].
  assert (skip_space (c :: s) = c :: s) as ->.
  { inversion Hs as [|? ? [-> | ->] _]; done. }
  assert (take_sign (c :: s) = (false, c :: s)) as ->.
  { inversion Hs as [|? ? [-> | ->] _]; done. }
  rewrite skip_prefix_bits by done.
  assert ((c =? ch_under)%N = false) as ->.
  { inversion Hs as [|? ? [-> | ->] _]; done. }
  rewrite scan_digits_bits by done.
  simpl. done.
Qed.

Lemma chr_byte v : 0 <= v < 256 -> chr v = Ok (Z.to_N v).
Proof.
  intros Hv. unfold chr, max_codepoint.
  destruct (decide _) as [_|Hn]; [done|lia].
Qed.

Lemma slice_0_app (s1 s2 : str) k :
  length s1 = k -> slice (s1 ++ s2) 0 (0 + k) = s1.
Proof.
  intros <-. unfold slice. rewrite drop_0.
  replace (0 + length s1 - 0)%nat with (length s1) by lia.
  by rewrite take_app_length.
Qed.

Lemma slice_shift (s : str) k i w :
  slice s (i + k) (i + k + w) = slice (drop k s) i (i + w).
Proof.
  unfold slice. rewrite drop_drop.
  replace (i + k + w - (i + k))%nat with (i + w - i)%nat by lia.
  by replace (k + i)%nat with (i + k)%nat by lia.
Qed.

Lemma for_each_shift {S} (body1 body2 : S -> nat -> result S) k s l :
  (forall s i, body1 s (i + k)%nat = body2 s i) ->
  for_each body1 s ((fun i => (i + k)%nat) <$> l) = for_each body2 s l.
Proof.
  intros Hb. revert s. induction l as [|i l IH]; intros s; simpl; [done|].
  rewrite Hb. destruct (body2 s i); simpl; [apply IH|done].
Qed.

End IntLiteral.

(** ** The codec on bit strings *)

Section Codec.
Import PyStr Circuit TextEncoding.

Lemma text_to_binary_cons c text :
  text_to_binary (c :: text) = format_08b c ++ text_to_binary text.
Proof. done. Qed.

Lemma text_to_binary_app t1 t2 :
  text_to_binary (t1 ++ t2) = text_to_binary t1 ++ text_to_binary t2.
Proof. unfold text_to_binary. by rewrite fmap_app, concat_app. Qed.

Lemma text_to_binary_bits text : is_bits (text_to_binary text).
Proof.
  induction text as [|c text IH]; [constructor|].
  rewrite text_to_binary_cons. apply Forall_app. split; [apply format_08b_bits|done].
Qed.

Lemma text_to_binary_length_bytes text :
  Forall (fun c => (c < 256)%N) text ->
  length (text_to_binary text) = (8 * length text)%nat.
Proof.
  induction 1 as [|c text Hc _ IH]; [done|].
  rewrite text_to_binary_cons, length_app, format_08b_length_byte, IH by done.
  simpl. lia.
Qed.

Lemma elem_of_range_step i stop step :
  (0 < step)%nat -> i ∈ range_step stop step -> (i < stop)%nat.
Proof.
  intros Hs. unfold range_step. rewrite list_elem_of_fmap.
  intros (k & -> & Hk). apply elem_of_seq in Hk as [_ Hk]. simpl in Hk.
  assert (k * step <= (stop + step - 1) / step * step - step)%nat by nia.
  pose proof (Nat.Div0.mul_div_le (stop + step - 1) step). nia.
Qed.

Lemma for_each_collect {A} (body : str -> A -> result str) (g : A -> char) l acc :
  (forall text i, i ∈ l -> body text i = Ok (text ++ [g i])) ->
  for_each body acc l = Ok (acc ++ (g <$> l)).
Proof.
  revert acc. induction l as [|i l IH]; intros acc Hb; simpl.
  - by rewrite app_nil_r.
  - rewrite Hb by left. simpl. rewrite IH.
    + by rewrite <- app_assoc.
    + intros text j Hj. apply Hb. by right.
Qed.

Lemma slice_bits (s : str) i j : is_bits s -> is_bits (slice s i j).
Proof. intros Hs. unfold slice. by apply Forall_take, Forall_drop. Qed.

Lemma slice_nonempty (s : str) i w :
  (i < length s)%nat -> (0 < w)%nat -> slice s i (i + w) ≠ [].
Proof.
  intros Hi Hw Heq. apply (f_equal length) in Heq.
  unfold slice in Heq. rewrite length_take, length_drop in Heq. simpl in Heq. lia.
Qed.

Lemma slice_length_le (s : str) i w : (length (slice s i (i + w)) <= w)%nat.
Proof. unfold slice. rewrite length_take. lia. Qed.

(** On a bit string, of any length, [binary_to_text] returns: every group
    it reads is a non-empty binary numeral below 256. *)
Lemma binary_to_text_bits binary :
  is_bits binary -> binary_to_text binary = Ok (decode_groups binary).
Proof.
  intros Hb. unfold binary_to_text, decode_groups.
  erewrite for_each_collect; [done|].
  intros text i Hi. simpl.
  apply elem_of_range_step in Hi; [|lia].
  rewrite int_base2_bits; [|by apply slice_bits|by apply slice_nonempty; lia].
  simpl. rewrite chr_byte; [done|].
  pose proof (bits_value_bounds (slice binary i (i + 8)) (slice_bits _ _ _ Hb)) as Hv.
  pose proof (slice_length_le binary i 8) as Hl.
  assert (2 ^ Z.of_nat (length (slice binary i (i + 8))) <= 2 ^ 8); [|lia].
  apply Z.pow_le_mono_r; lia.
Qed.

Lemma decode_groups_group (b8 rest : str) :
  length b8 = 8%nat ->
  decode_groups (b8 ++ rest) = Z.to_N (bits_value b8) :: decode_groups rest.
Proof.
  intros Hl. unfold decode_groups.
  rewrite range_step_pos by (rewrite ?length_app; lia).
  rewrite fmap_cons. f_equal.
  - by rewrite slice_0_app.
  - rewrite length_app, Hl. replace (8 + length rest - 8)%nat with (length rest) by lia.
    rewrite <- list_fmap_compose. apply list_fmap_ext. intros _ i _. simpl.
    rewrite slice_shift. by rewrite <- Hl, drop_app_length.
Qed.

Lemma decode_groups_partial (tail : str) :
  (0 < length tail < 8)%nat -> decode_groups tail = [Z.to_N (bits_value tail)].
Proof.
  intros Hl. unfold decode_groups.
  rewrite range_step_pos by lia.
  replace (length tail - 8)%nat with 0%nat by lia.
  rewrite range_step_0 by lia. simpl.
  unfold slice. rewrite drop_0. by rewrite take_ge by lia.
Qed.

Lemma decode_groups_app (full tail : str) k :
  length full = (8 * k)%nat ->
  decode_groups (full ++ tail) = decode_groups full ++ decode_groups tail.
Proof.
  revert full. induction k as [|k IH]; intros full Hl.
  - destruct full; [done|simpl in Hl; lia].
  - rewrite <- (take_drop 8 full).
    assert (length (take 8 full) = 8%nat) as H8 by (rewrite length_take; lia).
    rewrite <- app_assoc.
    rewrite (decode_groups_group _ (drop 8 full ++ tail)) by done.
    rewrite (decode_groups_group _ (drop 8 full)) by done.
    rewrite IH by (rewrite length_drop; lia). done.
Qed.

Lemma decode_groups_text_to_binary text :
  Forall (fun c => (c < 256)%N) text -> decode_groups (text_to_binary text) = text.
Proof.
  induction 1 as [|c text Hc _ IH]; [done|].
  rewrite text_to_binary_cons.
  rewrite decode_groups_group by (by apply format_08b_length_byte).
  by rewrite format_08b_value, N2Z.id, IH.
Qed.

End Codec.

(** ** The circuit of a chunk and its single shot *)

Section ChunkCircuit.
Import PyStr Circuit TextEncoding.

Lemma append_nil qc : append qc [] = qc.
Proof. destruct qc. unfold append. simpl. by rewrite app_nil_r. Qed.

Lemma append_append qc i1 i2 : append (append qc i1) i2 = append qc (i1 ++ i2).
Proof. unfold append. simpl. by rewrite app_assoc. Qed.

Lemma x_ok qc q :
  (q < num_qubits qc)%nat -> Circuit.x qc q = Ok (append qc [XGate q]).
Proof. intros Hq. unfold Circuit.x. by rewrite decide_True. Qed.

Lemma encode_loop l : forall k qc,
  (k + length l <= num_qubits qc)%nat ->
  for_each (fun qc '(i, bit) => if (bit =? ch1)%N then x qc i else Ok qc)
    qc (imap (fun i bit => (k + i, bit)%nat) l)
  = Ok (append qc (x_gates k l)).
Proof.
  induction l as [|c l IH]; intros k qc Hk.
  - simpl. by rewrite append_nil.
  - rewrite imap_cons. cbn [for_each x_gates length] in *.
    rewrite Nat.add_0_r.
    assert (imap ((fun i bit => ((k + i)%nat, bit)) ∘ S) l
            = imap (fun i bit => ((S k + i)%nat, bit)) l) as ->.
    { apply imap_ext. intros i b _. simpl. f_equal. lia. }
    destruct (c =? ch1)%N.
    + rewrite x_ok by lia. cbn [mbind result_bind].
      rewrite IH by (simpl; lia). by rewrite append_append.
    + cbn [mbind result_bind app]. apply IH. lia.
Qed.

Lemma encode_circuit_ok b :
  encode_circuit b =
  Ok (mkCircuit (length b) (length b)
        (x_gates 0 b ++ ((fun i => Measure i i) <$> seq 0 (length b)))).
Proof.
  unfold encode_circuit.
  assert (imap (fun i bit => (i, bit)) b = imap (fun i bit => ((0 + i)%nat, bit)) b) as ->.
  { by apply imap_ext. }
  rewrite encode_loop by (simpl; lia). simpl.
  unfold measure_all. simpl. rewrite decide_True by done.
  unfold append. simpl. done.
Qed.

Lemma run_x_gates l : forall pre cl,
  foldl step (mkState (pre ++ replicate (length l) false) cl) (x_gates (length pre) l)
  = mkState (pre ++ flags l) cl.
Proof.
  induction l as [|c l IH]; intros pre cl; [done|].
  simpl. rewrite foldl_app.
  replace (S (length pre)) with (length (pre ++ [(c =? ch1)%N])%list)
    by (rewrite length_app; simpl; lia).
  change ((c =? ch1)%N :: flags l) with ([(c =? ch1)%N] ++ flags l).
  rewrite (app_assoc pre). rewrite <- (IH (pre ++ [(c =? ch1)%N]) cl).
  f_equal. destruct (c =? ch1)%N; simpl.
  - rewrite alter_app_r_alt by lia. rewrite Nat.sub_diag. simpl.
    by rewrite <- app_assoc.
  - by rewrite <- app_assoc.
Qed.

Lemma run_measures m : forall k q c0,
  length c0 = length q -> (k + m)%nat = length q ->
  foldl step (mkState q (take k q ++ drop k c0)) ((fun i => Measure i i) <$> seq k m)
  = mkState q q.
Proof.
  induction m as [|m IH]; intros k q c0 Hc Hk; simpl.
  - rewrite Nat.add_0_r in Hk. subst k.
    by rewrite take_ge, drop_ge, app_nil_r by lia.
  - destruct (lookup_lt_is_Some_2 q k) as [v Hv]; [lia|].
    destruct (lookup_lt_is_Some_2 c0 k) as [w Hw]; [lia|].
    rewrite Hv. simpl.
    rewrite insert_app_r_alt by (rewrite length_take; lia).
    rewrite length_take. replace (k - k `min` length q)%nat with 0%nat by lia.
    rewrite (drop_S _ _ _ Hw). simpl.
    specialize (IH (S k) q c0 Hc). rewrite (take_S_r _ _ _ Hv) in IH.
    rewrite <- app_assoc in IH. simpl in IH. apply IH. lia.
Qed.

(** The single shot of the circuit of [b] leaves the flags of [b] in both
    registers. *)
Lemma run_shot_encode b qc :
  encode_circuit b = Ok qc -> run_shot qc = mkState (flags b) (flags b).
Proof.
  rewrite encode_circuit_ok. intros [= <-].
  unfold run_shot, init_state. simpl. rewrite foldl_app.
  rewrite (run_x_gates b [] _). simpl.
  assert (length (flags b) = length b) as Hl by (unfold flags; by rewrite length_fmap).
  rewrite <- Hl.
  apply (run_measures (length (flags b)) 0 (flags b) (replicate (length (flags b)) false)).
  - by rewrite length_replicate.
  - done.
Qed.

Lemma bit_char_flags b : is_bits b -> bit_char <$> flags b = b.
Proof.
  induction 1 as [|c b Hc _ IH]; [done|].
  unfold flags in *. rewrite !fmap_cons, IH.
  by destruct Hc as [-> | ->].
Qed.

Lemma flags_bit_char (f : list bool) : flags (bit_char <$> f) = f.
Proof.
  unfold flags. rewrite <- list_fmap_compose.
  rewrite <- (list_fmap_id f) at 2. apply list_fmap_ext. by intros _ [] _.
Qed.

Lemma measured_key_encode b qc :
  encode_circuit b = Ok qc -> measured_key qc = Ok (reverse (bit_char <$> flags b)).
Proof.
  intros Hqc. unfold measured_key, get_counts. simpl.
  by rewrite (run_shot_encode _ _ Hqc).
Qed.

Lemma process_chunk_ok chunk :
  exists qc, process_chunk chunk = Ok (text_to_binary chunk, qc).
Proof.
  unfold process_chunk.
  destruct (encode_circuit (text_to_binary chunk)) as [qc|e] eqn:Hqc;
    [|by rewrite encode_circuit_ok in Hqc].
  exists qc. cbn [mbind result_bind]. rewrite (measured_key_encode _ _ Hqc).
  cbn [mbind result_bind].
  rewrite reverse_involutive, bit_char_flags; [done|apply text_to_binary_bits].
Qed.

End ChunkCircuit.

(** ** The loop over the chunks *)

Section Chunks.
Import PyStr Circuit TextEncoding.

Local Abbreviation chunk_body message chunk_size :=
  (fun '(result_binary, circuits) i =>
     let chunk := slice message i (i + Z.to_nat chunk_size) in
     '(chunk_binary, circuit) ← process_chunk chunk;
     Ok (result_binary ++ chunk_binary, circuits ++ [circuit])).

Lemma chunk_loop chunk_size n : 1 <= chunk_size ->
  forall (message acc : str) (circs : list QuantumCircuit),
  (length message <= n)%nat ->
  exists circs',
    for_each (chunk_body message chunk_size) (acc, circs)
      (range_step (length message) (Z.to_nat chunk_size))
    = Ok (acc ++ text_to_binary message, circs ++ circs')
    ∧ length circs' = length (range_step (length message) (Z.to_nat chunk_size)).
Proof.
  intros Hcs. induction n as [|n IH]; intros message acc circs Hn.
  - destruct message; [|simpl in Hn; lia]. simpl.
    rewrite range_step_0 by lia. exists []. by rewrite !app_nil_r.
  - destruct (decide (message = [])) as [->|Hne].
    { simpl. rewrite range_step_0 by lia. exists []. by rewrite !app_nil_r. }
    assert (0 < length message)%nat by (destruct message; [done|simpl; lia]).
    rewrite range_step_pos by lia. cbn [for_each].
    destruct (process_chunk_ok (slice message 0 (0 + Z.to_nat chunk_size))) as [qc Hqc].
    rewrite Hqc. cbn [mbind result_bind].
    rewrite (for_each_shift _ (chunk_body (drop (Z.to_nat chunk_size) message) chunk_size)).
    2:{ intros [rb cs] i. cbn beta iota zeta. by rewrite slice_shift. }
    rewrite <- (length_drop message).
    destruct (IH (drop (Z.to_nat chunk_size) message)
                (acc ++ text_to_binary (slice message 0 (0 + Z.to_nat chunk_size)))
                (circs ++ [qc])) as (circs' & Hloop & Hlen).
    { rewrite length_drop. lia. }
    exists (qc :: circs'). rewrite Hloop. split.
    + f_equal. f_equal.
      * rewrite <- app_assoc. f_equal. rewrite <- text_to_binary_app.
        unfold slice. rewrite drop_0, Nat.add_0_l, Nat.sub_0_r.
        by rewrite take_drop.
      * by rewrite <- app_assoc.
    + simpl. by rewrite length_fmap, Hlen.
Qed.

(** With a chunk size of at least 1 the loop returns the bits of the whole
    message, whatever the grouping, and one circuit per chunk. *)
Lemma process_message_chunks_ok message chunk_size :
  1 <= chunk_size ->
  exists circuits,
    process_message_chunks message chunk_size = Ok (text_to_binary message, circuits)
    ∧ length circuits = length (range_step (length message) (Z.to_nat chunk_size)).
Proof.
  intros Hcs. unfold process_message_chunks, py_range.
  rewrite decide_False by lia. rewrite decide_False by lia.
  cbn [mbind result_bind].
  destruct (chunk_loop chunk_size (length message) Hcs message [] []) as (cs & Hl & Hlen);
    [done|].
  exists cs. split; [exact Hl | done].
Qed.

End Chunks.

(** ** Binary numerals *)

Section Numerals.
Import PyStr TextEncoding.






End Numerals.

(** * The claims about [quantum_text_encoding.py] *)

Section TextClaims.
Import PyStr Circuit TextEncoding.

(** C1. For a message whose code points are all below 256 and a chunk size
    of at least 1, encoding and then decoding returns the message. *)
Theorem round_trip_bytes (message : str) (chunk_size : Z) :
  Forall (fun c => (c < 256)%N) message ->
  1 <= chunk_size ->
  quantum_text_encoding message chunk_size = Ok message.
Proof.
  intros Hb Hcs. unfold quantum_text_encoding.
  destruct (process_message_chunks_ok message chunk_size Hcs) as (circuits & -> & _).
  cbn [mbind result_bind].
  rewrite binary_to_text_bits by apply text_to_binary_bits.
  by rewrite decode_groups_text_to_binary.
Qed.

Lemma round_trip_bytes_witness :
  Forall (fun c => (c < 256)%N) (lit "Hi, Bob!") ∧ 1 <= 3 ∧
  quantum_text_encoding (lit "Hi, Bob!") 3 = Ok (lit "Hi, Bob!").
Proof.
  assert (Forall (fun c => (c < 256)%N) (lit "Hi, Bob!")) as Hb
    by (repeat constructor).
  assert (1 <= 3) as Hcs by lia.
  exact (conj Hb (conj Hcs (round_trip_bytes (lit "Hi, Bob!") 3 Hb Hcs))).
Defined.

(** C3, as stated, fails: the 7 bits ["0100000"] are not dropped, they
    decode to the character of code point 32. *)
Lemma partial_group_not_dropped :
  binary_to_text (lit "0100000") = Ok (lit " ") ∧
  binary_to_text (lit "0100000") ≠ Ok (lit "").
Proof. split; [reflexivity | discriminate]. Qed.

(** C3, amended. When a bit string ends with a partial group of fewer than
    8 bits after its full groups, [binary_to_text] decodes the full groups
    and then appends the character whose code point the partial group
    spells. *)
Theorem partial_group_decoded (full tail : str) (k : nat) :
  is_bits full -> is_bits tail ->
  length full = (8 * k)%nat -> (0 < length tail < 8)%nat ->
  exists text,
    binary_to_text full = Ok text ∧
    binary_to_text (full ++ tail) = Ok (text ++ [Z.to_N (bits_value tail)]) ∧
    length text = k.
Proof.
  intros Hf Ht Hk Hl. exists (decode_groups full).
  assert (is_bits (full ++ tail)) as Hft by (apply Forall_app; by split).
  rewrite (binary_to_text_bits full), (binary_to_text_bits (full ++ tail)) by done.
  rewrite (decode_groups_app full tail k Hk), (decode_groups_partial tail) by done.
  repeat split. unfold decode_groups, range_step.
  rewrite length_fmap, length_fmap, length_seq, Hk.
  replace (8 * k + 8 - 1)%nat with (k * 8 + 7)%nat by lia.
  rewrite Nat.div_add_l by lia. by rewrite Nat.add_0_r.
Qed.

Lemma partial_group_decoded_witness :
  exists text,
    binary_to_text (lit "01000001") = Ok text ∧
    binary_to_text (lit "01000001" ++ lit "0100000") = Ok (text ++ [Z.to_N (bits_value (lit "0100000"))]) ∧
    length text = 1%nat.
Proof.
  apply (partial_group_decoded (lit "01000001") (lit "0100000") 1).
  - repeat constructor; (by left) || (by right).
  - repeat constructor; (by left) || (by right).
  - reflexivity.
  - simpl. lia.
Defined.




Lemma range_step_unit n : length (range_step n 1) = n.
Proof.
  unfold range_step. rewrite length_fmap, length_seq.
  replace (n + 1 - 1)%nat with n by lia. apply Nat.div_1_r.
Qed.

Lemma range_step_whole n : (0 < n)%nat -> length (range_step n n) = 1%nat.
Proof.
  intros Hn. unfold range_step. rewrite length_fmap, length_seq.
  replace (n + n - 1)%nat with (1 * n + (n - 1))%nat by lia.
  rewrite Nat.div_add_l by lia. rewrite Nat.div_small by lia. done.
Qed.

(** C5. For a non-empty string, chunks of one character and a single chunk
    of the whole string give the same bit string, and so does every chunk
    size from 1 on: the bits of the whole string.  Only the number of
    circuits differs: one per character, or one in all. *)
Theorem chunking_invariance (s : str) (chunk_size : Z) :
  s ≠ [] -> 1 <= chunk_size ->
  fst <$> process_message_chunks s 1 = Ok (text_to_binary s) ∧
  fst <$> process_message_chunks s (Z.of_nat (length s)) = Ok (text_to_binary s) ∧
  fst <$> process_message_chunks s chunk_size = Ok (text_to_binary s) ∧
  length ∘ snd <$> process_message_chunks s 1 = Ok (length s) ∧
  length ∘ snd <$> process_message_chunks s (Z.of_nat (length s)) = Ok 1%nat.
Proof.
  intros Hne Hcs.
  assert (0 < length s)%nat as Hlen by (destruct s; [done|simpl; lia]).
  destruct (process_message_chunks_ok s 1) as (c1 & H1 & Hl1); [lia|].
  destruct (process_message_chunks_ok s (Z.of_nat (length s))) as (cn & Hn & Hln); [lia|].
  destruct (process_message_chunks_ok s chunk_size Hcs) as (cc & Hc & _).
  rewrite H1, Hn, Hc. cbn [fmap result_fmap fst snd compose].
  change (Z.to_nat 1) with 1%nat in Hl1. rewrite range_step_unit in Hl1.
  rewrite Nat2Z.id, range_step_whole in Hln by done.
  by rewrite Hl1, Hln.
Qed.

Lemma chunking_invariance_witness :
  fst <$> process_message_chunks (lit "Hello") 1 = Ok (text_to_binary (lit "Hello")) ∧
  fst <$> process_message_chunks (lit "Hello") (Z.of_nat (length (lit "Hello")))
    = Ok (text_to_binary (lit "Hello")) ∧
  fst <$> process_message_chunks (lit "Hello") 2 = Ok (text_to_binary (lit "Hello")) ∧
  length ∘ snd <$> process_message_chunks (lit "Hello") 1 = Ok (length (lit "Hello")) ∧
  length ∘ snd <$> process_message_chunks (lit "Hello") (Z.of_nat (length (lit "Hello")))
    = Ok 1%nat.
Proof.
  apply (chunking_invariance (lit "Hello") 2).
  - discriminate.
  - lia.
Defined.

(** C6. For any vector of flags, the circuit that prepares them is built
    without error, its single shot reads back the string whose character
    [i] is flag [n-1-i], and reversing that string gives the flags again;
    hence [process_chunk] returns the bits of [text_to_binary chunk]
    unchanged. *)
Theorem measure_and_reverse (f : list bool) (chunk : str) :
  (exists qc measured,
      encode_circuit (bit_char <$> f) = Ok qc ∧
      measured_key qc = Ok measured ∧
      length measured = length f ∧
      (forall i, (i < length f)%nat ->
                 measured !! i = bit_char <$> f !! (length f - 1 - i)%nat) ∧
      reverse measured = bit_char <$> f) ∧
  (exists qc measured,
      encode_circuit (text_to_binary chunk) = Ok qc ∧
      measured_key qc = Ok measured ∧
      measured = reverse (text_to_binary chunk) ∧
      process_chunk chunk = Ok (text_to_binary chunk, qc)).
Proof.
  split.
  - destruct (encode_circuit (bit_char <$> f)) as [qc|e] eqn:Hqc;
      [|by rewrite encode_circuit_ok in Hqc].
    exists qc, (reverse (bit_char <$> f)).
    split; [done|].
    split; [by rewrite (measured_key_encode _ _ Hqc), flags_bit_char|].
    split; [by rewrite length_reverse, length_fmap|].
    split; [|by rewrite reverse_involutive].
    intros i Hi. rewrite reverse_lookup by (rewrite length_fmap; lia).
    rewrite length_fmap, list_lookup_fmap. do 2 f_equal. lia.
  - destruct (encode_circuit (text_to_binary chunk)) as [qc|e] eqn:Hqc;
      [|by rewrite encode_circuit_ok in Hqc].
    exists qc, (reverse (text_to_binary chunk)).
    pose proof (measured_key_encode _ _ Hqc) as Hm.
    rewrite bit_char_flags in Hm by apply text_to_binary_bits.
    repeat split; [done|].
    unfold process_chunk. rewrite Hqc. cbn [mbind result_bind].
    rewrite Hm. cbn [mbind result_bind]. by rewrite reverse_involutive.
Qed.

(** C8, as stated, fails: outside the bit strings [binary_to_text] does
    raise; a group such as ["2"] is not a base-2 literal. *)
Lemma binary_to_text_raises :
  binary_to_text (lit "2") = Raise ValueError.
Proof. reflexivity. Qed.

(** C8, amended. [text_to_binary] always returns a bit string, and on any
    text, made of bytes or not, with a chunk size of at least 1, the
    encoding and the round trip return without raising; [binary_to_text]
    returns without raising on every bit string, of any length. *)
Theorem codec_total (text b : str) (chunk_size : Z) :
  1 <= chunk_size -> is_bits b ->
  is_bits (text_to_binary text) ∧
  (exists circuits,
      process_message_chunks text chunk_size = Ok (text_to_binary text, circuits)) ∧
  (exists decoded, binary_to_text (text_to_binary text) = Ok decoded) ∧
  (exists decoded, quantum_text_encoding text chunk_size = Ok decoded) ∧
  (exists decoded, binary_to_text b = Ok decoded).
Proof.
  intros Hcs Hb.
  destruct (process_message_chunks_ok text chunk_size Hcs) as (circuits & Hp & _).
  pose proof (text_to_binary_bits text) as Ht.
  split; [done|].
  split; [by exists circuits|].
  split; [eexists; by apply binary_to_text_bits|].
  split; [|eexists; by apply binary_to_text_bits].
  unfold quantum_text_encoding. rewrite Hp. cbn [mbind result_bind].
  eexists. by apply binary_to_text_bits.
Qed.

Lemma codec_total_witness :
  is_bits (text_to_binary [8364%N; 65%N]) ∧
  (exists circuits,
      process_message_chunks [8364%N; 65%N] 3
      = Ok (text_to_binary [8364%N; 65%N], circuits)) ∧
  (exists decoded, binary_to_text (text_to_binary [8364%N; 65%N]) = Ok decoded) ∧
  (exists decoded, quantum_text_encoding [8364%N; 65%N] 3 = Ok decoded) ∧
  (exists decoded, binary_to_text (lit "0100000") = Ok decoded).
Proof.
  apply (codec_total [8364%N; 65%N] (lit "0100000") 3).
  - lia.
  - repeat constructor; (by left) || (by right).
Defined.

(** C9. On the empty message, with the default chunk size as with any
    chunk size other than 0, the loop runs for no chunk and returns an
    empty bit string and no circuit, and the round trip returns the empty
    string. *)
Theorem empty_message (chunk_size : Z) :
  chunk_size ≠ 0 ->
  process_message_chunks [] chunk_size = Ok ([], []) ∧
  quantum_text_encoding [] chunk_size = Ok [] ∧
  process_message_chunks (lit "") default_chunk_size = Ok (lit "", []) ∧
  quantum_text_encoding (lit "") default_chunk_size = Ok (lit "").
Proof.
  intros Hcs.
  assert (process_message_chunks [] chunk_size = Ok ([], [])) as Hp.
  { unfold process_message_chunks, py_range. rewrite decide_False by done.
    destruct (decide (chunk_size < 0)); [done|].
    simpl. rewrite range_step_0 by lia. done. }
  split; [done|].
  split; [|split; reflexivity].
  unfold quantum_text_encoding. by rewrite Hp.
Qed.

Lemma empty_message_witness :
  process_message_chunks [] 3 = Ok ([], []) ∧
  quantum_text_encoding [] 3 = Ok [] ∧
  process_message_chunks (lit "") default_chunk_size = Ok (lit "", []) ∧
  quantum_text_encoding (lit "") default_chunk_size = Ok (lit "").
Proof. apply (empty_message 3). discriminate. Defined.

(** C10. On the character ["A"], of code point 65, [text_to_binary] gives
    ["01000001"] and [binary_to_text] gives ["A"] back. *)
Theorem letter_A :
  lit "A" = [65%N] ∧
  text_to_binary (lit "A") = lit "01000001" ∧
  binary_to_text (lit "01000001") = Ok (lit "A") ∧
  binary_to_text (text_to_binary (lit "A")) = Ok (lit "A").
Proof. repeat split; reflexivity. Qed.

End TextClaims.

(** ** Bubble passes on plain lists *)

Section Passes.
Import Sort.

Lemma swap_at_cons z ys j : swap_at (z :: ys) (S j) = z :: swap_at ys j.
Proof.
  unfold swap_at. simpl.
  destruct (ys !! j) as [a|]; [|done].
  destruct (ys !! (j + 1)%nat) as [b|]; [|done].
  by destruct (a >? b).
Qed.

Lemma swap_at_length ys j : length (swap_at ys j) = length ys.
Proof.
  unfold swap_at.
  destruct (ys !! j) as [a|]; [|done].
  destruct (ys !! (j + 1)%nat) as [b|]; [|done].
  destruct (a >? b); [|done]. by rewrite !length_insert.
Qed.

Lemma swaps_cons z m : forall a ys,
  foldl swap_at (z :: ys) (seq (S a) m) = z :: foldl swap_at ys (seq a m).
Proof.
  induction m as [|m IH]; intros a ys; [done|].
  simpl. rewrite swap_at_cons. apply IH.
Qed.

Lemma swaps_length l ys : length (foldl swap_at ys l) = length ys.
Proof.
  revert ys. induction l as [|j l IH]; intros ys; [done|].
  simpl. by rewrite IH, swap_at_length.
Qed.

(** Comparing the first [m] neighbour pairs from the left is a [bubble]
    through the first [m + 1] items. *)
Lemma swaps_bubble m : forall x l,
  (m <= length l)%nat ->
  foldl swap_at (x :: l) (seq 0 m) = bubble x (take m l) ++ drop m l.
Proof.
  induction m as [|m IH]; intros x l Hm; [done|].
  destruct l as [|y l]; [simpl in Hm; lia|].
  simpl in Hm. cbn [seq foldl take drop bubble].
  unfold swap_at at 2. cbn [lookup list_lookup Nat.add].
  destruct (x >? y); cbn [insert list_insert];
    rewrite swaps_cons, IH by lia; done.
Qed.

Lemma bubble_perm x l : bubble x l ≡ₚ x :: l.
Proof.
  revert x. induction l as [|y l IH]; intros x; [done|].
  simpl. destruct (x >? y).
  - rewrite IH. apply perm_swap.
  - by rewrite IH.
Qed.

(** A [bubble] ends with an item that is at least every other one. *)
Lemma bubble_last x l :
  exists l' mx, bubble x l = l' ++ [mx] ∧ Forall (fun y => y <= mx) l' ∧ x <= mx.
Proof.
  revert x. induction l as [|y l IH]; intros x.
  - exists [], x. repeat split; [constructor | lia].
  - simpl. destruct (Z.gtb_spec x y) as [Hgt|Hle].
    + destruct (IH x) as (l' & mx & -> & Hl' & Hx).
      exists (y :: l'), mx. repeat split; [|done].
      constructor; [lia|done].
    + destruct (IH y) as (l' & mx & -> & Hl' & Hy).
      exists (x :: l'), mx. repeat split; [|lia].
      constructor; [lia|done].
Qed.

Lemma pass_settles n i ys :
  length ys = n -> (i < n)%nat -> settled i ys ->
  settled (S i) (pass n ys i) ∧ pass n ys i ≡ₚ ys.
Proof.
  intros Hn Hi (pre & suf & -> & Hsuf & Hsorted & Hle).
  rewrite length_app in Hn.
  destruct pre as [|x l]; [simpl in Hn; lia|]. simpl in Hn.
  unfold pass. replace (n - i - 1)%nat with (length l) by lia.
  cbn [app]. rewrite swaps_bubble by (rewrite length_app; lia).
  rewrite take_app_length, drop_app_length.
  destruct (bubble_last x l) as (l' & mx & Hb & Hmx & _).
  pose proof (bubble_perm x l) as Hperm. rewrite Hb in Hperm.
  split.
  - exists l', (mx :: suf). rewrite Hb, <- app_assoc.
    split; [done|]. split; [simpl; lia|].
    assert (forall p, p ∈ l' ++ [mx] -> Forall (Z.le p) suf) as Hall.
    { intros p Hp. rewrite Hperm in Hp.
      by apply (proj1 (Forall_forall _ _) Hle). }
    split.
    + constructor; [done|]. apply Hall. set_solver.
    + apply Forall_forall. intros p Hp. constructor.
      * by apply (proj1 (Forall_forall _ _) Hmx).
      * apply Hall. set_solver.
  - rewrite Hb, Hperm. done.
Qed.

Lemma passes_from n cnt : forall i ys,
  (i + cnt)%nat = n -> length ys = n -> settled i ys ->
  settled n (foldl (pass n) ys (seq i cnt)) ∧ foldl (pass n) ys (seq i cnt) ≡ₚ ys.
Proof.
  induction cnt as [|cnt IH]; intros i ys Hi Hn Hs.
  - simpl. rewrite Nat.add_0_r in Hi. by subst i.
  - simpl. destruct (pass_settles n i ys Hn) as [Hs' Hp]; [lia|done|].
    destruct (IH (S i) (pass n ys i)) as [Hs'' Hp'']; [lia| |done|].
    { unfold pass. by rewrite swaps_length. }
    split; [done|]. by rewrite Hp''.
Qed.

(** The [n] passes sort a list of [n] items. *)
Lemma passes_sorted ys :
  StronglySorted Z.le (passes (length ys) ys) ∧ passes (length ys) ys ≡ₚ ys.
Proof.
  destruct (passes_from (length ys) (length ys) 0 ys) as [Hs Hp]; [done|done| |].
  { exists ys, []. rewrite app_nil_r. repeat split; [constructor|].
    apply Forall_forall. intros. constructor. }
  split; [|done]. unfold passes.
  destruct Hs as (pre & suf & Heq & Hl & Hsorted & _).
  assert (length (pre ++ suf) = length ys) as Hlen.
  { rewrite <- Heq. by rewrite Hp. }
  rewrite length_app in Hlen.
  destruct pre; [|simpl in Hlen; lia].
  by rewrite Heq.
Qed.

End Passes.

(** * The claims about [quantum_sort.py] *)

Section SortClaims.
Import PyStr Circuit Sort.

Lemma quantum_compare_run (a b : Z) : quantum_compare a b = Ok (a >? b).
Proof. unfold quantum_compare. by destruct (a >? b). Qed.

(** C2. For all integers [a] and [b], [quantum_compare a b] returns, with
    no error and no choice left to the measurement, the truth value of
    [a > b]. *)
Theorem quantum_compare_gt (a b : Z) :
  quantum_compare a b = Ok (a >? b) ∧ ((a >? b) = true <-> a > b).
Proof.
  split; [apply quantum_compare_run|].
  rewrite Z.gtb_ltb, Z.ltb_lt. lia.
Qed.

(** *** Running the loops on the store *)

Lemma bind_run {A B} (m : Py A) (f : A -> Py B) (h : store) :
  (m ≫= f) h = match m h with Ok (a, h') => f a h' | Raise e => Raise e end.
Proof. done. Qed.

Lemma list_get_run (h : store) r (ys : list Z) j v :
  h !! r = Some ys -> ys !! j = Some v -> list_get r j h = Ok (v, h).
Proof. intros Hr Hj. unfold list_get. by rewrite Hr, Hj. Qed.

Lemma list_set_run (h : store) r (ys : list Z) j v :
  h !! r = Some ys -> (j < length ys)%nat ->
  list_set r j v h = Ok ((), <[r := <[j := v]> ys]> h).
Proof. intros Hr Hj. unfold list_set. rewrite Hr. by rewrite decide_True. Qed.

Lemma compare_and_swap_run (h : store) r (ys : list Z) j :
  h !! r = Some ys -> (j + 1 < length ys)%nat ->
  compare_and_swap r j h = Ok ((), <[r := swap_at ys j]> h).
Proof.
  intros Hr Hj.
  destruct (lookup_lt_is_Some_2 ys j) as [a Ha]; [lia|].
  destruct (lookup_lt_is_Some_2 ys (j + 1)) as [b Hb]; [lia|].
  unfold compare_and_swap, swap_at. rewrite Ha, Hb.
  rewrite bind_run, (list_get_run h r ys j a) by done.
  rewrite bind_run, (list_get_run h r ys (j + 1) b) by done.
  rewrite bind_run. unfold lift.
  rewrite quantum_compare_run.
  destruct (a >? b).
  - rewrite bind_run, (list_get_run h r ys (j + 1) b) by done.
    rewrite bind_run, (list_get_run h r ys j a) by done.
    rewrite bind_run, (list_set_run h r ys j b) by (done || lia).
    rewrite (list_set_run _ r (<[j := b]> ys) (j + 1) a).
    + by rewrite insert_insert_eq.
    + by rewrite lookup_insert_eq.
    + rewrite length_insert. lia.
  - unfold mret, Py_ret. by rewrite insert_id.
Qed.

Lemma inner_loop_run r m : forall a (h : store) (ys : list Z),
  h !! r = Some ys -> (m = 0 ∨ a + m < length ys)%nat ->
  for_in (seq a m) (fun j => compare_and_swap r j) h
  = Ok ((), <[r := foldl swap_at ys (seq a m)]> h).
Proof.
  induction m as [|m IH]; intros a h ys Hr Hm.
  - simpl. unfold mret, Py_ret. by rewrite insert_id.
  - cbn [seq for_in foldl]. rewrite bind_run.
    rewrite (compare_and_swap_run h r ys a) by (done || lia).
    rewrite (IH (S a) _ (swap_at ys a)).
    + by rewrite insert_insert_eq.
    + by rewrite lookup_insert_eq.
    + rewrite swap_at_length. lia.
Qed.

Lemma outer_loop_run r n cnt : forall i (h : store) (ys : list Z),
  h !! r = Some ys -> length ys = n -> (i + cnt <= n)%nat ->
  for_in (seq i cnt)
    (fun i => for_range (n - i - 1) (fun j => compare_and_swap r j)) h
  = Ok ((), <[r := foldl (pass n) ys (seq i cnt)]> h).
Proof.
  induction cnt as [|cnt IH]; intros i h ys Hr Hn Hi.
  - simpl. unfold mret, Py_ret. by rewrite insert_id.
  - cbn [seq for_in foldl]. rewrite bind_run. unfold for_range at 1.
    rewrite (inner_loop_run r (n - i - 1) 0 h ys) by (done || lia).
    rewrite (IH (S i) _ (pass n ys i)).
    + by rewrite insert_insert_eq.
    + by rewrite lookup_insert_eq.
    + unfold pass. by rewrite swaps_length.
    + lia.
Qed.

(** C7. Run on a reference to a list of integers, [quantum_bubble_sort]
    returns a reference to a new list, sorted in non-decreasing order and
    a permutation of the argument; the store is otherwise unchanged, so
    the argument list still holds its items in their order. *)
Theorem quantum_bubble_sort_sorts (h : store) (arr : ref) (xs : list Z) :
  h !! arr = Some xs ->
  exists array_sorted ys,
    quantum_bubble_sort arr h = Ok (array_sorted, <[array_sorted := ys]> h) ∧
    h !! array_sorted = None ∧
    array_sorted ≠ arr ∧
    Sorted Z.le ys ∧
    ys ≡ₚ xs ∧
    (<[array_sorted := ys]> h) !! arr = Some xs.
Proof.
  intros Harr.
  set (r := fresh (dom h)).
  assert (h !! r = None) as Hfresh.
  { apply not_elem_of_dom. apply is_fresh. }
  assert (r ≠ arr) as Hne.
  { intros Heq. rewrite Heq in Hfresh. congruence. }
  destruct (passes_sorted xs) as [Hsorted Hperm].
  exists r, (passes (length xs) xs).
  split; [|repeat split; try done].
  - unfold quantum_bubble_sort.
    rewrite bind_run. unfold list_len at 1. rewrite Harr.
    rewrite bind_run. unfold list_copy at 1. rewrite Harr. fold r.
    rewrite bind_run. unfold for_range at 1.
    rewrite (outer_loop_run r (length xs) (length xs) 0 _ xs);
      [|by rewrite lookup_insert_eq|done|lia].
    unfold mret, Py_ret. by rewrite insert_insert_eq.
  - by apply StronglySorted_Sorted.
  - by rewrite lookup_insert_ne.
Qed.

Lemma quantum_bubble_sort_sorts_witness :
  exists array_sorted ys,
    quantum_bubble_sort 0%nat (<[0%nat := [4; 2; 47; 1; 5; 51; 1]]> ∅)
    = Ok (array_sorted, <[array_sorted := ys]> (<[0%nat := [4; 2; 47; 1; 5; 51; 1]]> ∅)) ∧
    (<[0%nat := [4; 2; 47; 1; 5; 51; 1]]> ∅ : store) !! array_sorted = None ∧
    array_sorted ≠ 0%nat ∧
    Sorted Z.le ys ∧
    ys ≡ₚ [4; 2; 47; 1; 5; 51; 1] ∧
    (<[array_sorted := ys]> (<[0%nat := [4; 2; 47; 1; 5; 51; 1]]> ∅) : store) !! 0%nat
    = Some [4; 2; 47; 1; 5; 51; 1].
Proof.
  apply (quantum_bubble_sort_sorts (<[0%nat := [4; 2; 47; 1; 5; 51; 1]]> ∅) 0%nat).
  reflexivity.
Defined.

(** The list of [main]: the result is a new sorted list, the argument
    keeps its order. *)
Example sort_main_list :
  match quantum_bubble_sort 0%nat (<[0%nat := [4; 2; 47; 1; 5; 51; 1]]> ∅) with
  | Ok (array_sorted, h) => (h !! array_sorted, h !! 0%nat)
  | Raise _ => (None, None)
  end = (Some [1; 1; 2; 4; 5; 47; 51], Some [4; 2; 47; 1; 5; 51; 1]).
Proof. vm_compute. reflexivity. Qed.

End SortClaims.

(** * Further properties of [quantum_text_encoding.py] *)

Section DecodeMore.
Import PyStr Circuit TextEncoding.

Lemma for_each_grows {A} (body : str -> A -> result str) l : forall acc out,
  (forall text i text', body text i = Ok text' -> length text' = S (length text)) ->
  for_each body acc l = Ok out -> length out = (length acc + length l)%nat.
Proof.
  induction l as [|i l IH]; intros acc out Hb Hrun; simpl in *.
  - injection Hrun as <-. lia.
  - destruct (body acc i) as [acc'|e] eqn:Hi; [|done].
    cbn [mbind result_bind] in Hrun.
    rewrite (IH acc' out Hb Hrun), (Hb _ _ _ Hi). lia.
Qed.

Lemma for_each_ok_inv {S A} (body : S -> A -> result S) l : forall acc out,
  for_each body acc l = Ok out ->
  forall i, i ∈ l -> exists s s', body s i = Ok s'.
Proof.
  induction l as [|j l IH]; intros acc out Hrun i Hi; [by apply elem_of_nil in Hi|].
  simpl in Hrun. destruct (body acc j) as [acc'|e] eqn:Hj; [|done].
  cbn [mbind result_bind] in Hrun.
  apply elem_of_cons in Hi as [->|Hi]; [by exists acc, acc'|].
  by apply (IH acc' out Hrun).
Qed.

Lemma for_each_raise_inv {S A} (body : S -> A -> result S) l : forall acc e,
  for_each body acc l = Raise e -> exists s i, body s i = Raise e.
Proof.
  induction l as [|j l IH]; intros acc e Hrun; [done|].
  simpl in Hrun. destruct (body acc j) as [acc'|e'] eqn:Hj.
  - cbn [mbind result_bind] in Hrun. by apply (IH acc').
  - injection Hrun as ->. by exists acc, j.
Qed.

Lemma range_step_length stop step :
  length (range_step stop step) = ((stop + step - 1) / step)%nat.
Proof. unfold range_step. by rewrite length_fmap, length_seq. Qed.

(** X1. Whenever [binary_to_text] returns, the text has one character per
    group of 8 started: the length of the input divided by 8, rounded up. *)
Theorem binary_to_text_length (binary text : str) :
  binary_to_text binary = Ok text ->
  length text = ((length binary + 7) / 8)%nat.
Proof.
  intros Hrun. unfold binary_to_text in Hrun.
  apply for_each_grows in Hrun.
  - rewrite Hrun, range_step_length. cbn [length].
    by replace (length binary + 8 - 1)%nat with (length binary + 7)%nat by lia.
  - intros t i t' Hb. simpl in Hb.
    destruct (int_base2 _) as [n|]; [|done]. simpl in Hb.
    destruct (chr n) as [c|]; [|done]. simpl in Hb.
    injection Hb as <-. rewrite length_app. simpl. lia.
Qed.

Lemma binary_to_text_length_witness :
  binary_to_text (lit "0100000101") = Ok (lit "A" ++ [1%N]) ∧
  length (lit "A" ++ [1%N]) = ((length (lit "0100000101") + 7) / 8)%nat.
Proof.
  assert (binary_to_text (lit "0100000101") = Ok (lit "A" ++ [1%N])) as H
    by reflexivity.
  exact (conj H (binary_to_text_length _ _ H)).
Defined.

(** A non-ASCII decimal digit is read as its ASCII digit, a non-ASCII
    space as a space: ARABIC-INDIC DIGIT ONE alone decodes to code point 1. *)
Example binary_to_text_unicode_digit :
  binary_to_text [0x661%N] = Ok [1%N] ∧
  binary_to_text [0xA0%N; 0xFF11%N; 0x660%N; 0x3000%N] = Ok [2%N] ∧
  binary_to_text [0x662%N] = Raise ValueError.
Proof. repeat split; reflexivity. Qed.

(** *** What a base-2 literal can hold *)

Lemma skip_space_alphabet s :
  Forall (fun c => literal_char c = true) (skip_space s) ->
  Forall (fun c => literal_char c = true) s.
Proof.
  induction s as [|c s IH]; intros H; [done|]. simpl in H.
  destruct (is_space c) eqn:Hc; [|done].
  constructor; [|by apply IH]. unfold literal_char. by rewrite Hc.
Qed.

Lemma skip_space_nil s :
  skip_space s = [] -> Forall (fun c => literal_char c = true) s.
Proof.
  intros H. apply skip_space_alphabet. rewrite H. constructor.
Qed.

Lemma take_sign_alphabet s :
  Forall (fun c => literal_char c = true) (take_sign s).2 ->
  Forall (fun c => literal_char c = true) s.
Proof.
  destruct s as [|c s]; [done|]. unfold take_sign.
  destruct (N.eqb_spec c ch_plus) as [->|_]; [by constructor|].
  destruct (N.eqb_spec c ch_minus) as [->|_]; [by constructor|done].
Qed.

Lemma skip_prefix_alphabet s :
  Forall (fun c => literal_char c = true) (skip_prefix s) ->
  Forall (fun c => literal_char c = true) s.
Proof.
  destruct s as [|c [|d s]]; [done|done|]. unfold skip_prefix.
  destruct ((c =? ch0) && ((d =? ch_b) || (d =? ch_B)))%N eqn:Hcond; [|done].
  apply andb_true_iff in Hcond as [Hc Hd].
  apply N.eqb_eq in Hc as ->.
  assert (literal_char d = true) as Hlit.
  { apply orb_true_iff in Hd as [Hd|Hd]; apply N.eqb_eq in Hd as ->; done. }
  destruct s as [|u s].
  - intros _. constructor; [done|]. constructor; [done|]. constructor.
  - destruct (N.eqb_spec u ch_under) as [->|_]; intros H.
    + do 3 (constructor; [done|]). done.
    + do 2 (constructor; [done|]). done.
Qed.

Lemma scan_digits_alphabet s : forall prev acc n v n' rest,
  scan_digits prev acc n s = Some (v, n', rest) ->
  Forall (fun c => literal_char c = true) rest ->
  Forall (fun c => literal_char c = true) s.
Proof.
  induction s as [|c s IH]; intros prev acc n v n' rest Hscan Hrest; [done|].
  simpl in Hscan.
  destruct (N.eqb_spec c ch_under) as [->|_].
  { destruct (prev =? ch_under)%N; [done|]. constructor; [done|]. eauto. }
  destruct (N.eqb_spec c ch0) as [->|_]; [constructor; [done|]; eauto|].
  destruct (N.eqb_spec c ch1) as [->|_]; [constructor; [done|]; eauto|].
  destruct (prev =? ch_under)%N; [done|].
  by injection Hscan as _ _ <-.
Qed.

(** A literal that [PyLong_FromString] accepts holds only characters of
    the alphabet. *)
Lemma long_from_string_alphabet s v :
  long_from_string s = Ok v -> Forall (fun c => literal_char c = true) s.
Proof.
  unfold long_from_string. intros H.
  apply skip_space_alphabet, take_sign_alphabet.
  destruct (take_sign (skip_space s)) as [neg s2]. simpl.
  apply skip_prefix_alphabet.
  destruct (skip_prefix s2) as [|c s3] eqn:Hs3; [done|].
  destruct (c =? ch_under)%N; [done|].
  destruct (scan_digits 0%N 0 0 (c :: s3)) as [[[w n] rest]|] eqn:Hscan; [|done].
  destruct (decide (n = 0%nat)); [done|].
  destruct (skip_space rest) eqn:Hrest; [|done].
  eapply scan_digits_alphabet; [exact Hscan|]. by apply skip_space_nil.
Qed.

Lemma is_ascii_Forall s : is_ascii s = true -> Forall (fun c => (c < 128)%N) s.
Proof.
  induction s as [|c s IH]; [constructor|]. simpl.
  intros [Hc Hs]%andb_true_iff. constructor; [by apply N.ltb_lt|by apply IH].
Qed.

(** The rewriting to ASCII keeps every character below 127; when what it
    gives is a literal, the string had no other character below 128. *)
Lemma transform_to_ascii_alphabet s :
  Forall (fun c => literal_char c = true) (transform_to_ascii s) ->
  Forall (fun c => (c < 128)%N -> literal_char c = true) s.
Proof.
  induction s as [|c s IH]; [constructor|]. simpl.
  destruct (N.ltb_spec c 127) as [Hlt|Hge].
  - intros [Hc Hs]%Forall_cons. constructor; [done|by apply IH].
  - assert ((c < 128)%N -> c = 127%N) as H127 by lia.
    destruct (unicode_isspace c) eqn:Hsp.
    { intros [_ Hs]%Forall_cons. constructor; [|by apply IH].
      intros ->%H127. done. }
    destruct (unicode_todecimal c) as [d|] eqn:Hd.
    { intros [_ Hs]%Forall_cons. constructor; [|by apply IH].
      intros ->%H127. done. }
    intros [Hq _]%Forall_cons. done.
Qed.

(** A literal that [int(s, 2)] accepts holds no ASCII character outside
    the alphabet. *)
Lemma int_base2_alphabet s v :
  int_base2 s = Ok v -> Forall (fun c => (c < 128)%N -> literal_char c = true) s.
Proof.
  unfold int_base2. destruct (is_ascii s) eqn:Ha; intros H.
  - apply long_from_string_alphabet in H.
    eapply Forall_impl; [exact H|]. by intros c Hc _.
  - by apply transform_to_ascii_alphabet, (long_from_string_alphabet _ v).
Qed.

Lemma long_from_string_raises s e : long_from_string s = Raise e -> e = ValueError.
Proof.
  unfold long_from_string.
  destruct (take_sign (skip_space s)) as [neg s2].
  destruct (skip_prefix s2) as [|c s3]; [by intros [= <-]|].
  destruct (c =? ch_under)%N; [by intros [= <-]|].
  destruct (scan_digits _ _ _ _) as [[[w n] rest]|]; [|by intros [= <-]].
  destruct (decide _); [by intros [= <-]|].
  destruct (skip_space rest); [done|by intros [= <-]].
Qed.

Lemma int_base2_raises s e : int_base2 s = Raise e -> e = ValueError.
Proof. unfold int_base2. apply long_from_string_raises. Qed.

Lemma chr_raises i e : chr i = Raise e -> e = ValueError.
Proof. unfold chr. destruct (decide _); [done|by intros [= <-]]. Qed.

Lemma elem_of_slice_group (binary : str) c :
  c ∈ binary ->
  exists i, i ∈ range_step (length binary) 8 ∧ c ∈ slice binary i (i + 8).
Proof.
  intros Hc. apply list_elem_of_lookup in Hc as [p Hp].
  pose proof (lookup_lt_Some _ _ _ Hp) as Hlt.
  exists (p / 8 * 8)%nat. split.
  - unfold range_step. apply list_elem_of_fmap. exists (p / 8)%nat.
    split; [done|]. apply elem_of_seq. split; [lia|]. rewrite Nat.add_0_l.
    apply Nat.Div0.div_lt_upper_bound.
    pose proof (Nat.div_mod_eq (length binary + 8 - 1) 8).
    pose proof (Nat.mod_upper_bound (length binary + 8 - 1) 8). lia.
  - apply list_elem_of_lookup. exists (p mod 8)%nat.
    unfold slice. rewrite lookup_take_lt.
    + rewrite lookup_drop. rewrite <- Hp. f_equal.
      pose proof (Nat.div_mod_eq p 8). lia.
    + pose proof (Nat.mod_upper_bound p 8). lia.
Qed.

(** X2. [binary_to_text] raises ValueError, and nothing else, as soon as
    its input holds an ASCII character that no base-2 literal can hold
    (anything but white space, a sign, ['0'], ['1'], ['_'], ['b'], ['B']). *)
Theorem binary_to_text_invalid_char (binary : str) (c : char) :
  c ∈ binary -> (c < 128)%N -> literal_char c = false ->
  binary_to_text binary = Raise ValueError.
Proof.
  intros Hc Hascii Hbad.
  destruct (binary_to_text binary) as [text|e] eqn:Hrun.
  - exfalso. destruct (elem_of_slice_group binary c Hc) as (i & Hi & Hin).
    unfold binary_to_text in Hrun.
    destruct (for_each_ok_inv _ _ _ _ Hrun i Hi) as (t & t' & Hb).
    simpl in Hb.
    destruct (int_base2 (slice binary i (i + 8))) as [n|] eqn:Hint; [|done].
    apply int_base2_alphabet in Hint.
    rewrite Forall_forall in Hint. specialize (Hint c Hin Hascii). congruence.
  - f_equal. unfold binary_to_text in Hrun.
    apply for_each_raise_inv in Hrun as (t & i & Hb). simpl in Hb.
    destruct (int_base2 (slice binary i (i + 8))) as [n|e'] eqn:Hint.
    + simpl in Hb. destruct (chr n) as [d|e'] eqn:Hchr; [done|].
      simpl in Hb. injection Hb as <-. by apply chr_raises in Hchr.
    + simpl in Hb. injection Hb as <-. by apply int_base2_raises in Hint.
Qed.

Lemma binary_to_text_invalid_char_witness :
  binary_to_text (lit "0100000101000x10") = Raise ValueError.
Proof.
  apply (binary_to_text_invalid_char (lit "0100000101000x10") 120%N).
  - vm_compute. set_solver.
  - lia.
  - reflexivity.
Defined.

End DecodeMore.

Section RoundTrips.
Import PyStr Circuit TextEncoding.

Lemma is_bit_value c d :
  is_bit c -> is_bit d ->
  (if (c =? ch1)%N then 1 else 0) = (if (d =? ch1)%N then 1 else 0) -> c = d.
Proof. intros [-> | ->] [-> | ->]; simpl; done. Qed.

(** Two bit strings of one length that spell the same number are equal. *)
Lemma bits_value_inj a : forall b,
  is_bits a -> is_bits b -> length a = length b ->
  bits_value a = bits_value b -> a = b.
Proof.
  induction a as [|c a IH] using rev_ind; intros b Ha Hb Hl Hv.
  - destruct b; [done|simpl in Hl; lia].
  - destruct b as [|d b _] using rev_ind.
    { rewrite length_app in Hl. simpl in Hl. lia. }
    apply Forall_app in Ha as [Ha Hc]. apply Forall_app in Hb as [Hb Hd].
    apply Forall_inv in Hc, Hd.
    rewrite !length_app in Hl. simpl in Hl.
    rewrite !bits_value_snoc in Hv.
    assert (bits_value a = bits_value b ∧
            (if (c =? ch1)%N then 1 else 0) = (if (d =? ch1)%N then 1 else 0))
      as [Hv' Hcd] by (destruct (c =? ch1)%N, (d =? ch1)%N; lia).
    rewrite (IH b) by (done || lia). by rewrite (is_bit_value c d).
Qed.

Lemma format_08b_of_group b8 :
  is_bits b8 -> length b8 = 8%nat -> format_08b (Z.to_N (bits_value b8)) = b8.
Proof.
  intros Hb Hl. pose proof (bits_value_bounds b8 Hb) as Hv. rewrite Hl in Hv.
  apply bits_value_inj.
  - apply format_08b_bits.
  - done.
  - rewrite Hl. apply format_08b_length_byte. change 256%N with (Z.to_N 256).
    apply Z2N.inj_lt; lia.
  - rewrite format_08b_value. rewrite Z2N.id; lia.
Qed.

Lemma text_to_binary_decode_groups k : forall binary,
  is_bits binary -> length binary = (8 * k)%nat ->
  text_to_binary (decode_groups binary) = binary ∧ length (decode_groups binary) = k.
Proof.
  induction k as [|k IH]; intros binary Hb Hl.
  - destruct binary; [done|simpl in Hl; lia].
  - rewrite <- (take_drop 8 binary) in Hb |- *.
    apply Forall_app in Hb as [H8 Hrest].
    assert (length (take 8 binary) = 8%nat) as Hl8 by (rewrite length_take; lia).
    rewrite decode_groups_group by done.
    rewrite text_to_binary_cons, format_08b_of_group by done.
    destruct (IH (drop 8 binary)) as [Ht Hk]; [done|rewrite length_drop; lia|].
    split; [by rewrite Ht | simpl; by rewrite Hk].
Qed.

(** X3. Decoding then encoding: on a bit string whose length is a multiple
    of 8, [binary_to_text] returns a text of one character per group that
    [text_to_binary] turns back into the same bit string. *)
Theorem decode_encode (binary : str) (k : nat) :
  is_bits binary -> length binary = (8 * k)%nat ->
  exists text,
    binary_to_text binary = Ok text ∧
    text_to_binary text = binary ∧
    length text = k.
Proof.
  intros Hb Hl. exists (decode_groups binary).
  split; [by apply binary_to_text_bits|].
  by apply text_to_binary_decode_groups.
Qed.

Lemma decode_encode_witness :
  exists text,
    binary_to_text (lit "0100100001101001") = Ok text ∧
    text_to_binary text = lit "0100100001101001" ∧
    length text = 2%nat.
Proof.
  apply (decode_encode (lit "0100100001101001") 2).
  - repeat constructor; (by left) || (by right).
  - reflexivity.
Defined.

Lemma decode_groups_bytes binary :
  is_bits binary -> Forall (fun c => (c < 256)%N) (decode_groups binary).
Proof.
  intros Hb. unfold decode_groups. apply Forall_fmap, Forall_forall.
  intros i _. cbv beta. unfold compose.
  pose proof (bits_value_bounds (slice binary i (i + 8)) (slice_bits _ _ _ Hb)) as Hv.
  pose proof (slice_length_le binary i 8) as Hl.
  assert (2 ^ Z.of_nat (length (slice binary i (i + 8))) <= 2 ^ 8)
    by (apply Z.pow_le_mono_r; lia).
  change 256%N with (Z.to_N 256). apply Z2N.inj_lt; lia.
Qed.

(** X4. With a chunk size of at least 1 the round trip always returns a
    text of code points below 256; it gives the message back exactly when
    every code point of the message is below 256. *)
Theorem round_trip_iff_bytes (message : str) (chunk_size : Z) :
  1 <= chunk_size ->
  (exists decoded,
      quantum_text_encoding message chunk_size = Ok decoded ∧
      Forall (fun c => (c < 256)%N) decoded) ∧
  (quantum_text_encoding message chunk_size = Ok message <->
   Forall (fun c => (c < 256)%N) message).
Proof.
  intros Hcs.
  assert (quantum_text_encoding message chunk_size
          = Ok (decode_groups (text_to_binary message))) as Hrun.
  { unfold quantum_text_encoding.
    destruct (process_message_chunks_ok message chunk_size Hcs) as (circuits & -> & _).
    cbn [mbind result_bind]. apply binary_to_text_bits, text_to_binary_bits. }
  pose proof (decode_groups_bytes _ (text_to_binary_bits message)) as Hbytes.
  split; [by eexists|].
  rewrite Hrun. split.
  - intros [= Heq]. by rewrite Heq in Hbytes.
  - intros Hb. by rewrite decode_groups_text_to_binary.
Qed.

Lemma round_trip_iff_bytes_witness :
  (exists decoded,
      quantum_text_encoding [8364%N] 3 = Ok decoded ∧
      Forall (fun c => (c < 256)%N) decoded) ∧
  (quantum_text_encoding [8364%N] 3 = Ok [8364%N] <->
   Forall (fun c => (c < 256)%N) [8364%N]).
Proof. apply (round_trip_iff_bytes [8364%N] 3). lia. Defined.

(** X5. A chunk size that is not positive: with 0 the encoding and the
    round trip raise ValueError on every message, the empty one included;
    with a negative size the loop runs for no chunk, so whatever the message
    the encoding returns an empty bit string and no circuit, and the round
    trip returns the empty string. *)
Theorem chunk_size_not_positive (message : str) (chunk_size : Z) :
  chunk_size <= 0 ->
  process_message_chunks message chunk_size
  = (if decide (chunk_size = 0) then Raise ValueError else Ok ([], [])) ∧
  quantum_text_encoding message chunk_size
  = (if decide (chunk_size = 0) then Raise ValueError else Ok []).
Proof.
  intros Hcs.
  assert (process_message_chunks message chunk_size
          = (if decide (chunk_size = 0) then Raise ValueError else Ok ([], []))) as Hp.
  { unfold process_message_chunks, py_range.
    destruct (decide (chunk_size = 0)); [done|]. by rewrite decide_True by lia. }
  split; [done|]. unfold quantum_text_encoding. rewrite Hp.
  by destruct (decide (chunk_size = 0)).
Qed.

Lemma chunk_size_not_positive_witness :
  (process_message_chunks (lit "Hello") (-2) = Ok ([], []) ∧
   quantum_text_encoding (lit "Hello") (-2) = Ok []) ∧
  (process_message_chunks (lit "") 0 = Raise ValueError ∧
   quantum_text_encoding (lit "") 0 = Raise ValueError).
Proof.
  split.
  - apply (chunk_size_not_positive (lit "Hello") (-2)). lia.
  - apply (chunk_size_not_positive (lit "") 0). lia.
Defined.

End RoundTrips.

Section ChunksMore.
Import PyStr Circuit TextEncoding.

Local Abbreviation chunk_body message chunk_size :=
  (fun '(result_binary, circuits) i =>
     let chunk := slice message i (i + Z.to_nat chunk_size) in
     '(chunk_binary, circuit) ← process_chunk chunk;
     Ok (result_binary ++ chunk_binary, circuits ++ [circuit])).

Lemma chunks_nil s : (0 < s)%nat -> chunks [] s = [].
Proof. intros Hs. unfold chunks. simpl. by rewrite range_step_0. Qed.

Lemma chunks_step (message : str) s :
  (0 < s)%nat -> message ≠ [] ->
  chunks message s = take s message :: chunks (drop s message) s.
Proof.
  intros Hs Hne.
  assert (0 < length message)%nat by (destruct message; [done|simpl; lia]).
  unfold chunks. rewrite range_step_pos by lia. rewrite fmap_cons. f_equal.
  - unfold slice. by rewrite drop_0, Nat.add_0_l, Nat.sub_0_r.
  - rewrite <- list_fmap_compose, length_drop. apply list_fmap_ext.
    intros _ i _. simpl. by rewrite slice_shift.
Qed.

(** The chunks cut the message into consecutive non-empty pieces of at most
    [s] characters. *)
Lemma chunks_partition s n : (0 < s)%nat -> forall message : str,
  (length message <= n)%nat ->
  concat (chunks message s) = message ∧
  Forall (fun chunk : str => (0 < length chunk <= s)%nat) (chunks message s).
Proof.
  intros Hs. induction n as [|n IH]; intros message Hn.
  - destruct message; [|simpl in Hn; lia]. by rewrite chunks_nil.
  - destruct (decide (message = [])) as [->|Hne]; [by rewrite chunks_nil|].
    assert (0 < length message)%nat by (destruct message; [done|simpl; lia]).
    rewrite chunks_step by done.
    destruct (IH (drop s message)) as [Hc Hf]; [rewrite length_drop; lia|].
    split.
    + simpl. by rewrite Hc, take_drop.
    + constructor; [rewrite length_take; lia|done].
Qed.

Lemma chunk_loop_circuits chunk_size n : 1 <= chunk_size ->
  forall (message acc : str) (circs : list QuantumCircuit),
  (length message <= n)%nat ->
  exists circs',
    for_each (chunk_body message chunk_size) (acc, circs)
      (range_step (length message) (Z.to_nat chunk_size))
    = Ok (acc ++ text_to_binary message, circs ++ circs')
    ∧ Forall2 (fun chunk qc => process_chunk chunk = Ok (text_to_binary chunk, qc))
        (chunks message (Z.to_nat chunk_size)) circs'.
Proof.
  intros Hcs. induction n as [|n IH]; intros message acc circs Hn.
  - destruct message; [|simpl in Hn; lia]. simpl.
    rewrite chunks_nil, range_step_0 by lia. exists []. by rewrite !app_nil_r.
  - destruct (decide (message = [])) as [->|Hne].
    { simpl. rewrite chunks_nil, range_step_0 by lia. exists [].
      by rewrite !app_nil_r. }
    assert (0 < length message)%nat by (destruct message; [done|simpl; lia]).
    rewrite chunks_step by (done || lia).
    rewrite range_step_pos by lia. cbn [for_each].
    assert (slice message 0 (0 + Z.to_nat chunk_size) = take (Z.to_nat chunk_size) message)
      as Hslice by (unfold slice; by rewrite drop_0, Nat.add_0_l, Nat.sub_0_r).
    destruct (process_chunk_ok (take (Z.to_nat chunk_size) message)) as [qc Hqc].
    rewrite Hslice, Hqc. cbn [mbind result_bind].
    rewrite (for_each_shift _ (chunk_body (drop (Z.to_nat chunk_size) message) chunk_size)).
    2:{ intros [rb cs] i. cbn beta iota zeta. by rewrite slice_shift. }
    rewrite <- (length_drop message).
    destruct (IH (drop (Z.to_nat chunk_size) message)
                (acc ++ text_to_binary (take (Z.to_nat chunk_size) message))
                (circs ++ [qc])) as (circs' & Hloop & Hall).
    { rewrite length_drop. lia. }
    exists (qc :: circs'). rewrite Hloop. split.
    + f_equal. f_equal.
      * rewrite <- app_assoc. f_equal. rewrite <- text_to_binary_app.
        by rewrite take_drop.
      * by rewrite <- app_assoc.
    + by constructor.
Qed.

(** X6. With a chunk size of at least 1, the circuits returned are those of
    the chunks [message[i:i + chunk_size]], in order, one each; the chunks
    are non-empty, at most [chunk_size] long, and put end to end they are
    the message. *)
Theorem circuits_of_chunks (message : str) (chunk_size : Z) :
  1 <= chunk_size ->
  exists circuits,
    process_message_chunks message chunk_size = Ok (text_to_binary message, circuits) ∧
    Forall2 (fun chunk qc => process_chunk chunk = Ok (text_to_binary chunk, qc))
      (chunks message (Z.to_nat chunk_size)) circuits ∧
    concat (chunks message (Z.to_nat chunk_size)) = message ∧
    Forall (fun chunk : str => (0 < length chunk <= Z.to_nat chunk_size)%nat)
      (chunks message (Z.to_nat chunk_size)).
Proof.
  intros Hcs.
  destruct (chunk_loop_circuits chunk_size (length message) Hcs message [] [])
    as (circuits & Hl & Hall); [done|].
  exists circuits. split; [|split; [done|]].
  - unfold process_message_chunks, py_range.
    rewrite decide_False by lia. rewrite decide_False by lia.
    cbn [mbind result_bind]. exact Hl.
  - apply (chunks_partition _ (length message)); [lia|done].
Qed.

Lemma circuits_of_chunks_witness :
  exists circuits,
    process_message_chunks (lit "abcd") 3 = Ok (text_to_binary (lit "abcd"), circuits) ∧
    Forall2 (fun chunk qc => process_chunk chunk = Ok (text_to_binary chunk, qc))
      (chunks (lit "abcd") (Z.to_nat 3)) circuits ∧
    concat (chunks (lit "abcd") (Z.to_nat 3)) = lit "abcd" ∧
    Forall (fun chunk : str => (0 < length chunk <= Z.to_nat 3)%nat)
      (chunks (lit "abcd") (Z.to_nat 3)).
Proof. apply (circuits_of_chunks (lit "abcd") 3). lia. Defined.

End ChunksMore.

Section CircuitsMore.
Import PyStr Circuit TextEncoding.

Lemma elem_of_x_gates l : forall k g,
  g ∈ x_gates k l <-> exists j, g = XGate (k + j) ∧ l !! j = Some ch1.
Proof.
  induction l as [|c l IH]; intros k g; simpl.
  - split; [by intros ?%elem_of_nil|by intros (j & _ & ?)].
  - rewrite elem_of_app, IH. split.
    + intros [Hg|(j & -> & Hj)].
      * destruct (N.eqb_spec c ch1) as [->|_]; [|by apply elem_of_nil in Hg].
        apply list_elem_of_singleton in Hg as ->. exists 0%nat.
        by rewrite Nat.add_0_r.
      * exists (S j). split; [f_equal; lia|done].
    + intros ([|j] & -> & Hj).
      * left. simpl in Hj. injection Hj as ->. simpl.
        rewrite Nat.add_0_r. by apply list_elem_of_singleton.
      * right. exists j. split; [f_equal; lia|done].
Qed.

Lemma x_gates_NoDup l : forall k, NoDup (x_gates k l).
Proof.
  induction l as [|c l IH]; intros k; simpl; [constructor|].
  destruct (c =? ch1)%N; simpl; [|apply IH].
  constructor; [|apply IH].
  rewrite elem_of_x_gates. intros (j & [= Hk] & _). lia.
Qed.

Lemma process_chunk_circuit chunk :
  process_chunk chunk =
  Ok (text_to_binary chunk,
      mkCircuit (length (text_to_binary chunk)) (length (text_to_binary chunk))
        (x_gates 0 (text_to_binary chunk)
         ++ ((fun i => Measure i i) <$> seq 0 (length (text_to_binary chunk))))).
Proof.
  destruct (process_chunk_ok chunk) as [qc Hqc]. rewrite Hqc.
  unfold process_chunk in Hqc. rewrite encode_circuit_ok in Hqc.
  cbn [mbind result_bind] in Hqc.
  destruct (measured_key _); [|done]. cbn [mbind result_bind] in Hqc.
  by injection Hqc as _ <-.
Qed.

(** X7. The circuit that [process_chunk] returns has one qubit and one
    classical bit per bit of the chunk.  Its instructions are first the bit
    flips, one X on qubit [q] exactly when bit [q] is ['1'] and never twice
    on a qubit, then the measurement of each qubit [i] into classical bit
    [i], in order. *)
Theorem process_chunk_circuit_shape (chunk : str) :
  exists qc gates,
    process_chunk chunk = Ok (text_to_binary chunk, qc) ∧
    num_qubits qc = length (text_to_binary chunk) ∧
    num_clbits qc = length (text_to_binary chunk) ∧
    data qc = gates ++ ((fun i => Measure i i) <$> seq 0 (length (text_to_binary chunk))) ∧
    (forall g, g ∈ gates <-> exists q, g = XGate q ∧ text_to_binary chunk !! q = Some ch1) ∧
    NoDup gates.
Proof.
  eexists _, (x_gates 0 (text_to_binary chunk)).
  split; [apply process_chunk_circuit|].
  repeat split; try done.
  - intros Hg. apply elem_of_x_gates in Hg as (j & -> & Hj). by exists j.
  - intros (q & -> & Hq). apply elem_of_x_gates. by exists q.
  - apply x_gates_NoDup.
Qed.

Lemma Forall2_qubits (cs : list str) (circuits : list QuantumCircuit) :
  Forall2 (fun chunk qc => process_chunk chunk = Ok (text_to_binary chunk, qc))
    cs circuits ->
  Forall2 (fun chunk qc => num_qubits qc = length (text_to_binary chunk)
                           ∧ num_clbits qc = num_qubits qc) cs circuits.
Proof.
  intros H. eapply Forall2_impl; [exact H|].
  intros chunk qc Hqc. cbv beta in *.
  rewrite process_chunk_circuit in Hqc. by injection Hqc as <-.
Qed.

(** X8. For a message of code points below 256 and a chunk size of at least
    1, every circuit run has between 8 and [8 * chunk_size] qubits, as many
    classical bits, and the circuits together have 8 qubits per character
    of the message. *)
Theorem qubits_per_circuit (message : str) (chunk_size : Z) :
  Forall (fun c => (c < 256)%N) message -> 1 <= chunk_size ->
  exists bits circuits,
    process_message_chunks message chunk_size = Ok (bits, circuits) ∧
    Forall (fun qc => (8 <= num_qubits qc <= 8 * Z.to_nat chunk_size)%nat
                      ∧ num_clbits qc = num_qubits qc) circuits ∧
    sum_list (num_qubits <$> circuits) = (8 * length message)%nat.
Proof.
  intros Hb Hcs.
  destruct (chunk_loop_circuits chunk_size (length message) Hcs message [] [])
    as (circuits & Hl & Hall); [done|].
  exists (text_to_binary message), circuits. split.
  { unfold process_message_chunks, py_range.
    rewrite decide_False by lia. rewrite decide_False by lia.
    cbn [mbind result_bind]. exact Hl. }
  apply Forall2_qubits in Hall.
  destruct (chunks_partition (Z.to_nat chunk_size) (length message)) with (message := message)
    as [Hcat Hlen]; [lia|done|].
  assert (Forall (fun chunk : str => Forall (fun c => (c < 256)%N) chunk)
            (chunks message (Z.to_nat chunk_size))) as Hbytes.
  { apply Forall_forall. intros chunk Hin. apply Forall_forall. intros c Hc.
    rewrite Forall_forall in Hb. apply Hb. rewrite <- Hcat.
    apply list_elem_of_In, in_concat. exists chunk.
    split; by apply list_elem_of_In. }
  rewrite <- Hcat. clear Hcat Hl Hb.
  remember (chunks message (Z.to_nat chunk_size)) as cks eqn:E. clear E.
  induction Hall as [|chunk qc cs' circuits' [Hq Hc] _ IH]; [split; [constructor|done]|].
  apply Forall_cons in Hlen as [Hlen1 Hlen].
  apply Forall_cons in Hbytes as [Hb1 Hbytes].
  destruct (IH Hlen Hbytes) as [IH1 IH2].
  rewrite (text_to_binary_length_bytes _ Hb1) in Hq.
  split.
  - constructor; [|done]. split; [nia|done].
  - rewrite fmap_cons.
    change (sum_list (num_qubits qc :: (num_qubits <$> circuits')))
      with (num_qubits qc + sum_list (num_qubits <$> circuits'))%nat.
    cbn [concat]. rewrite IH2, Hq, length_app. lia.
Qed.

Lemma qubits_per_circuit_witness :
  exists bits circuits,
    process_message_chunks (lit "abcd") 3 = Ok (bits, circuits) ∧
    Forall (fun qc => (8 <= num_qubits qc <= 8 * Z.to_nat 3)%nat
                      ∧ num_clbits qc = num_qubits qc) circuits ∧
    sum_list (num_qubits <$> circuits) = (8 * length (lit "abcd"))%nat.
Proof.
  apply (qubits_per_circuit (lit "abcd") 3).
  - repeat constructor.
  - lia.
Defined.

Lemma ceil_div_Z (n s : nat) :
  (0 < s)%nat ->
  Z.of_nat ((n + s - 1) / s) =
  Z.of_nat n / Z.of_nat s + (if decide (Z.of_nat n mod Z.of_nat s = 0) then 0 else 1).
Proof.
  intros Hs. rewrite Nat2Z.inj_div.
  replace (Z.of_nat (n + s - 1)) with (Z.of_nat n + Z.of_nat s - 1) by lia.
  pose proof (Z.div_mod (Z.of_nat n) (Z.of_nat s)) as Hdm.
  pose proof (Z.mod_pos_bound (Z.of_nat n) (Z.of_nat s)) as Hmb.
  set (q := Z.of_nat n / Z.of_nat s) in *. set (r := Z.of_nat n mod Z.of_nat s) in *.
  destruct (decide (r = 0)) as [Hr|Hr].
  - rewrite Z.add_0_r. symmetry.
    apply (Z.div_unique _ _ q (Z.of_nat s - 1)); lia.
  - symmetry. apply (Z.div_unique _ _ (q + 1) (r - 1)); lia.
Qed.

(** X9. With a chunk size of at least 1, the total that
    [print_results_summary] prints is the number of circuits that
    [process_message_chunks] returned. *)
Theorem summary_counts_circuits (message : str) (chunk_size : Z) :
  1 <= chunk_size ->
  exists bits circuits,
    process_message_chunks message chunk_size = Ok (bits, circuits) ∧
    total_chunks message chunk_size = Some (Z.of_nat (length circuits)).
Proof.
  intros Hcs.
  destruct (process_message_chunks_ok message chunk_size Hcs) as (circuits & Hp & Hlen).
  exists (text_to_binary message), circuits. split; [done|].
  unfold total_chunks. rewrite decide_False by lia. f_equal.
  rewrite Hlen, range_step_length, ceil_div_Z by lia.
  by rewrite Z2Nat.id by lia.
Qed.

Lemma summary_counts_circuits_witness :
  exists bits circuits,
    process_message_chunks (lit "abcd") 3 = Ok (bits, circuits) ∧
    total_chunks (lit "abcd") 3 = Some (Z.of_nat (length circuits)).
Proof. apply (summary_counts_circuits (lit "abcd") 3). lia. Defined.

(** X10. With a chunk size of at least 1, the chunks are announced as
    number 1, 2, 3, ... in the order they are processed: the number printed
    for a chunk is the one [display_circuits] prints for its circuit. *)
Theorem chunk_numbers_consecutive (message : str) (chunk_size : Z) :
  1 <= chunk_size ->
  exists bits circuits,
    process_message_chunks message chunk_size = Ok (bits, circuits) ∧
    (fun i => chunk_number i chunk_size) <$>
      range_step (length message) (Z.to_nat chunk_size)
    = circuit_number <$> seq 0 (length circuits).
Proof.
  intros Hcs.
  destruct (process_message_chunks_ok message chunk_size Hcs) as (circuits & Hp & Hlen).
  exists (text_to_binary message), circuits. split; [done|].
  rewrite Hlen, range_step_length. unfold range_step.
  rewrite <- list_fmap_compose. apply list_fmap_ext.
  intros _ k _. unfold chunk_number, circuit_number, compose.
  rewrite Nat2Z.inj_mul, Z2Nat.id by lia. by rewrite Z.div_mul by lia.
Qed.

Lemma chunk_numbers_consecutive_witness :
  exists bits circuits,
    process_message_chunks (lit "abcd") 3 = Ok (bits, circuits) ∧
    (fun i => chunk_number i 3) <$> range_step (length (lit "abcd")) (Z.to_nat 3)
    = circuit_number <$> seq 0 (length circuits).
Proof. apply (chunk_numbers_consecutive (lit "abcd") 3). lia. Defined.

End CircuitsMore.

(** * Further properties of [quantum_sort.py] *)

Section SortMore.
Import PyStr Circuit Sort.

Lemma quantum_bubble_sort_run (h : store) (arr : ref) (xs : list Z) :
  h !! arr = Some xs ->
  quantum_bubble_sort arr h
  = Ok (fresh (dom h), <[fresh (dom h) := passes (length xs) xs]> h).
Proof.
  intros Harr. unfold quantum_bubble_sort.
  rewrite bind_run. unfold list_len at 1. rewrite Harr.
  rewrite bind_run. unfold list_copy at 1. rewrite Harr.
  rewrite bind_run. unfold for_range at 1.
  rewrite (outer_loop_run (fresh (dom h)) (length xs) (length xs) 0 _ xs);
    [|by rewrite lookup_insert_eq|done|lia].
  unfold mret, Py_ret. by rewrite insert_insert_eq.
Qed.

Lemma sorted_perm_eq (xs ys : list Z) :
  StronglySorted Z.le xs -> StronglySorted Z.le ys -> xs ≡ₚ ys -> xs = ys.
Proof.
  intros Hx Hy Hp. by apply (StronglySorted_unique Z.le).
Qed.



(** X12. The list returned depends only on the items, not on their order:
    two arguments that are permutations of one another give equal lists. *)
Theorem sort_of_permutation (h h' : store) (arr arr' : ref) (xs xs' : list Z) :
  h !! arr = Some xs -> h' !! arr' = Some xs' -> xs ≡ₚ xs' ->
  exists r r' ys,
    quantum_bubble_sort arr h = Ok (r, <[r := ys]> h) ∧
    quantum_bubble_sort arr' h' = Ok (r', <[r' := ys]> h').
Proof.
  intros Harr Harr' Hperm.
  exists (fresh (dom h)), (fresh (dom h')), (passes (length xs) xs).
  rewrite (quantum_bubble_sort_run h arr xs Harr).
  rewrite (quantum_bubble_sort_run h' arr' xs' Harr').
  split; [done|]. do 3 f_equal.
  destruct (passes_sorted xs) as [Hs Hp], (passes_sorted xs') as [Hs' Hp'].
  symmetry. apply sorted_perm_eq; [done|done|].
  by rewrite Hp, Hp'.
Qed.

Lemma sort_of_permutation_witness :
  exists r r' ys,
    quantum_bubble_sort 0%nat (<[0%nat := [3; 1; 2]]> ∅)
    = Ok (r, <[r := ys]> (<[0%nat := [3; 1; 2]]> ∅)) ∧
    quantum_bubble_sort 0%nat (<[0%nat := [1; 3; 2]]> ∅)
    = Ok (r', <[r' := ys]> (<[0%nat := [1; 3; 2]]> ∅)).
Proof.
  apply (sort_of_permutation (<[0%nat := [3; 1; 2]]> ∅) (<[0%nat := [1; 3; 2]]> ∅)
           0%nat 0%nat [3; 1; 2] [1; 3; 2]).
  - reflexivity.
  - reflexivity.
  - apply perm_swap.
Defined.

Lemma for_in_app l1 l2 (body : nat -> Py unit) (h : store) :
  for_in (l1 ++ l2) body h = (for_in l1 body ≫= fun _ => for_in l2 body) h.
Proof.
  revert h. induction l1 as [|k l1 IH]; intros h; [done|].
  cbn [app for_in]. rewrite !bind_run.
  destruct (body k h) as [[[] h1]|e]; [|done].
  by rewrite IH, bind_run.
Qed.

Lemma for_in_bind (l : list nat) (f : nat -> list nat) (body : nat -> Py unit) :
  forall h : store,
  for_in (i ← l; f i) body h = for_in l (fun i => for_in (f i) body) h.
Proof.
  induction l as [|i l IH]; intros h; [done|].
  cbn [mbind list_bind for_in]. rewrite for_in_app, !bind_run.
  destruct (for_in (f i) body h) as [[[] h1]|e]; [|done].
  apply IH.
Qed.

Lemma schedule_length n cnt : forall a,
  (a + cnt)%nat = n ->
  (2 * length (i ← seq a cnt; seq 0 (n - i - 1)) = cnt * (cnt - 1))%nat.
Proof.
  induction cnt as [|cnt IH]; intros a Ha; [done|].
  cbn [seq mbind list_bind]. rewrite length_app, length_seq.
  specialize (IH (S a)). cbn [mbind] in IH. nia.
Qed.

Lemma passes_schedule n cnt : forall a ys,
  foldl (pass n) ys (seq a cnt)
  = foldl swap_at ys (i ← seq a cnt; seq 0 (n - i - 1)).
Proof.
  induction cnt as [|cnt IH]; intros a ys; [done|].
  cbn [seq foldl mbind list_bind]. rewrite foldl_app.
  specialize (IH (S a) (pass n ys a)). cbn [mbind] in IH. exact IH.
Qed.

Lemma schedule_bounds n : Forall (fun j => (j + 1 < n)%nat) (comparison_schedule n).
Proof.
  apply Forall_forall. intros j Hj. unfold comparison_schedule in Hj.
  apply list_elem_of_bind in Hj as (i & Hj & Hi).
  apply elem_of_seq in Hj, Hi. lia.
Qed.

(** X13. The sort has no early exit: on a list of [n] items it runs the
    compare-and-swap step once for each index of a schedule fixed by [n]
    alone, [n * (n - 1) / 2] times in all, always at an index [j] with
    [j + 1 < n]; the list returned is the argument list after these steps. *)
Theorem comparisons_scheduled (h : store) (arr : ref) (xs : list Z) :
  h !! arr = Some xs ->
  quantum_bubble_sort arr h
  = (n ← list_len arr;
     array_sorted ← list_copy arr;
     _ ← for_in (comparison_schedule n) (fun j => compare_and_swap array_sorted j);
     mret array_sorted) h ∧
  (exists array_sorted,
      quantum_bubble_sort arr h
      = Ok (array_sorted,
            <[array_sorted := foldl swap_at xs (comparison_schedule (length xs))]> h)) ∧
  (2 * length (comparison_schedule (length xs)) = length xs * (length xs - 1))%nat ∧
  Forall (fun j => (j + 1 < length xs)%nat) (comparison_schedule (length xs)).
Proof.
  intros Harr.
  assert (quantum_bubble_sort arr h
          = (n ← list_len arr;
             array_sorted ← list_copy arr;
             _ ← for_in (comparison_schedule n)
                   (fun j => compare_and_swap array_sorted j);
             mret array_sorted) h) as Heq.
  { unfold quantum_bubble_sort. rewrite !(bind_run (list_len arr)).
    destruct (list_len arr h) as [[n h1]|e]; [|done].
    rewrite !(bind_run (list_copy arr)).
    destruct (list_copy arr h1) as [[r h2]|e]; [|done].
    rewrite !bind_run. unfold for_range, comparison_schedule.
    by rewrite for_in_bind. }
  split; [done|]. split; [|split].
  - exists (fresh (dom h)). rewrite (quantum_bubble_sort_run h arr xs Harr).
    do 3 f_equal. apply passes_schedule.
  - by apply schedule_length.
  - apply schedule_bounds.
Qed.

Lemma comparisons_scheduled_witness :
  (2 * length (comparison_schedule (length [4; 2; 47; 1; 5; 51; 1]))
   = length [4; 2; 47; 1; 5; 51; 1] * (length [4; 2; 47; 1; 5; 51; 1] - 1))%nat ∧
  exists array_sorted,
    quantum_bubble_sort 0%nat (<[0%nat := [4; 2; 47; 1; 5; 51; 1]]> ∅)
    = Ok (array_sorted,
          <[array_sorted := foldl swap_at [4; 2; 47; 1; 5; 51; 1]
                              (comparison_schedule (length [4; 2; 47; 1; 5; 51; 1]))]>
            (<[0%nat := [4; 2; 47; 1; 5; 51; 1]]> ∅)).
Proof.
  destruct (comparisons_scheduled (<[0%nat := [4; 2; 47; 1; 5; 51; 1]]> ∅) 0%nat
              [4; 2; 47; 1; 5; 51; 1]) as (_ & Hrun & Hlen & _).
  - reflexivity.
  - exact (conj Hlen Hrun).
Defined.

End SortMore.
